(** * Exact ESOP synthesis by bounded SAT: a shallow embedding of
    [esop::exact_synthesis_from_binary_string] (src/esop/exact_synthesis.cpp).

    Integers of the C++ code are [Z]; the truth table is the [std::string]
    as a list of characters; the kitty cube is its pair of 32-bit words
    [_bits]/[_mask]; the [sat::constraints] object is a record of clause and
    XOR lists that grows by appending.  The collaborators that are not part
    of this file's source (the SAT solver, Gauss elimination, the XOR to CNF
    converter, the symmetry breaker and the comparator used by [std::sort])
    are gathered in the record [externals]; the theorems state what they
    assume of them. *)

From Stdlib Require Import ZArith List Lia Bool Ascii Permutation Arith Finite.
Import ListNotations.
Open Scope Z_scope.

(** ** Cubes (kitty::cube) and ESOPs *)

Record cube := mk_cube { bits : Z; mask : Z }.

(** [kitty::cube c;] : both words are zero. *)
Definition cube_empty : cube := mk_cube 0 0.

(** [c.add_literal(var, polarity)]: [set_mask(var)] then [set_bit] or
    [clear_bit] on [_bits]. *)
Definition add_literal (c : cube) (var : Z) (polarity : bool) : cube :=
  mk_cube
    (if polarity then Z.lor (bits c) (Z.shiftl 1 var)
     else Z.land (bits c) (Z.lnot (Z.shiftl 1 var)))
    (Z.lor (mask c) (Z.shiftl 1 var)).

Definition esop := list cube.

(** A cube covers the assignment [r] (bit [l] of [r] is the value of
    variable [l]) iff every variable in the mask has the polarity of [r]. *)
Definition cube_covers (c : cube) (r : Z) : bool :=
  Z.land (Z.lxor r (bits c)) (mask c) =? 0.

(** The value of an ESOP at [r]: the parity of the covering cubes. *)
Definition esop_eval (e : esop) (r : Z) : bool :=
  fold_left xorb (map (fun c => cube_covers c r) e) false.

(** ** Constraint sets (sat::constraints) *)

Record constraints := mk_constraints {
  clauses : list (list Z);
  xor_clauses : list (list Z * bool) }.

Definition constraints_empty : constraints := mk_constraints [] [].

Definition add_clause (cs : constraints) (c : list Z) : constraints :=
  mk_constraints (clauses cs ++ [c]) (xor_clauses cs).

Definition add_xor_clause (cs : constraints) (vs : list Z) (value : bool)
  : constraints :=
  mk_constraints (clauses cs) (xor_clauses cs ++ [(vs, value)]).

(** A literal [x > 0] is variable [x]; [-x] is its negation. *)
Definition lit_val (a : Z -> bool) (x : Z) : bool :=
  if 0 <? x then a x else negb (a (- x)).

Definition clause_sat (a : Z -> bool) (c : list Z) : bool :=
  existsb (lit_val a) c.

Definition xor_sat (a : Z -> bool) (x : list Z * bool) : bool :=
  Bool.eqb (fold_left xorb (map a (fst x)) false) (snd x).

Definition sat (a : Z -> bool) (cs : constraints) : bool :=
  forallb (clause_sat a) (clauses cs) && forallb (xor_sat a) (xor_clauses cs).

(** ** Collaborators not under src/ *)

(** Modelled from the spec: the SAT solver wrapper [sat::sat_solver] (not
    in src/) takes a constraint set and returns UNSAT ([None]) or a model
    ([Some m]).  The model is the solver's value vector [result.model],
    indexed by solver variable: the clause literal [+v]/[-v] is solver
    variable [v-1], which is the zero-based offset the extraction code
    reads with ([model[j*num_vars + l]] for the id [1 + num_vars*j + l]).
    [asg_of m] turns the vector back into a value per variable id. *)
Record externals := {
  solve : constraints -> option (Z -> bool);
  gauss_elimination : constraints -> constraints;
  xor_clauses_to_cnf : Z -> constraints -> constraints;
  cnf_symmetry_breaking : constraints -> constraints;
  (** [std::sort(esop.begin(), esop.end(), cube_weight_compare(num_vars))] *)
  sort_esop : Z -> esop -> esop }.

Definition asg_of (m : Z -> bool) : Z -> bool := fun v => m (v - 1).

(** ** Configuration (nlohmann::json) *)

Record config := mk_config {
  cfg_maximum_cubes : option Z;
  cfg_dump_cnf : option bool;
  cfg_one_esop : option bool }.

Definition UINT_MAX : Z := 2 ^ 32 - 1.
Definition INT_MAX : Z := 2 ^ 31 - 1.

(** [config.count(key) > 0u ? unsigned(config[key]) : default] *)
Definition max_number_of_cubes (cfg : config) : Z :=
  match cfg_maximum_cubes cfg with Some m => m mod 2 ^ 32 | None => 10 end.

Definition one_esop_of (cfg : config) : bool :=
  match cfg_one_esop cfg with Some b => b | None => true end.

(** ** Loops and variable numbering *)

Definition zrange (n : Z) : list Z := map Z.of_nat (seq 0 (Z.to_nat n)).

(** Variable ids: p-block, then q-block, then the z-variables. *)
Definition p_var (num_vars : Z) (j l : Z) : Z := 1 + num_vars * j + l.
Definition q_var (num_vars k : Z) (j l : Z) : Z :=
  1 + num_vars * k + num_vars * j + l.

(** [minterm.get_bit(l)] *)
Definition get_bit (minterm : Z) (l : Z) : bool := Z.testbit minterm l.

(** [binary[i]] for [i < binary.size()]. *)
Definition char_at (binary : list ascii) (i : Z) : ascii :=
  nth (Z.to_nat i) binary zero.

Definition is_defined (ch : ascii) : bool :=
  (ch =? "0")%char || (ch =? "1")%char.

(** ** The encoder (lines 68-144) *)

Record enc_state := mk_enc {
  sid : Z;
  sample_counter : Z;
  cs : constraints }.

(** One pass of the do-while body for the row [minterm]: don't-care rows
    are skipped; a defined row gets [k] fresh z-variables, the [k*num_vars]
    implication clauses, the [k] converse clauses and one XOR constraint. *)
Definition encode_row (binary : list ascii) (num_vars k : Z) (minterm : Z)
  (st : enc_state) : enc_state :=
  let ch := char_at binary minterm in
  if negb (is_defined ch) then st else
  let z_vars := map (fun j => sid st + j) (zrange k) in
  let z j := nth (Z.to_nat j) z_vars 0 in
  let cs1 :=
    fold_left (fun cs j =>
      fold_left (fun cs l =>
        if get_bit minterm l
        then add_clause cs [- z j; - q_var num_vars k j l]
        else add_clause cs [- z j; - p_var num_vars j l])
        (zrange num_vars) cs)
      (zrange k) (cs st) in
  let cs2 :=
    fold_left (fun cs j =>
      add_clause cs
        (z j :: map (fun l => if get_bit minterm l then q_var num_vars k j l
                              else p_var num_vars j l) (zrange num_vars)))
      (zrange k) cs1 in
  let cs3 := add_xor_clause cs2 z_vars (ch =? "1")%char in
  mk_enc (sid st + k) (sample_counter st + 1) cs3.

(** 32-bit [int] arithmetic of [1 << num_vars]: undefined for a shift
    count outside [0, 32); otherwise the value converted to [int]. *)
Definition to_int32 (v : Z) : Z :=
  let w := v mod 2 ^ 32 in if w <? 2 ^ 31 then w else w - 2 ^ 32.

Definition shl_int (x n : Z) : option Z :=
  if (n <? 0) || (32 <=? n) then None else Some (to_int32 (Z.shiftl x n)).

(** The loop bound [(1 << num_vars)] as the unsigned value it is compared
    with ([minterm._bits] is a [uint32_t]). *)
Definition row_bound (num_vars : Z) : option Z :=
  option_map (fun b => b mod 2 ^ 32) (shl_int 1 num_vars).

(** [do { body; ++minterm._bits; } while (minterm._bits < bound);] with the
    32-bit counter.  The counter starts at 0 and rises by one per pass, so
    the body runs [max 1 bound] times; [fuel] is the number of passes left
    after the current one. *)
Fixpoint row_loop (binary : list ascii) (num_vars k : Z) (fuel : nat)
  (minterm bound : Z) (st : enc_state) : enc_state :=
  let st' := encode_row binary num_vars k minterm st in
  let minterm' := (minterm + 1) mod 2 ^ 32 in
  match fuel with
  | O => st'
  | S fuel' =>
      if minterm' <? bound
      then row_loop binary num_vars k fuel' minterm' bound st'
      else st'
  end.

(** The encoding for [k]: [None] when [1 << num_vars] is undefined. *)
Definition encode (binary : list ascii) (num_vars k : Z) : option enc_state :=
  match row_bound num_vars with
  | None => None
  | Some bound =>
      Some (row_loop binary num_vars k (Z.to_nat (bound - 1)) 0 bound
              (mk_enc (1 + 2 * num_vars * k) 0 constraints_empty))
  end.

(** ** Extraction (lines 176-205) *)

(** The cube of term [j] and its [cancel_cube] flag. *)
Definition extract_term (num_vars k : Z) (model : Z -> bool) (j : Z)
  : cube * bool :=
  fold_left (fun (acc : cube * bool) l =>
    let (c, cancel_cube) := acc in
    let p_value := model (j * num_vars + l) in
    let q_value := model (num_vars * k + j * num_vars + l) in
    if p_value && q_value then (c, true)
    else if p_value then (add_literal c l true, cancel_cube)
    else if q_value then (add_literal c l false, cancel_cube)
    else (c, cancel_cube))
    (zrange num_vars) (cube_empty, false).

Definition extract_esop (num_vars k : Z) (model : Z -> bool) : esop :=
  fold_left (fun e j =>
    let (c, cancel_cube) := extract_term num_vars k model j in
    if cancel_cube then e else e ++ [c])
    (zrange k) [].

(** ** Blocking clauses (lines 222-239) *)

(** The clause for the permutation [vs]: the pattern of slot [j] of the
    model, negated, placed at slot [vs[j]]. *)
Definition blocking_clause (num_vars k : Z) (model : Z -> bool)
  (vs : list Z) : list Z :=
  flat_map (fun j =>
    let vj := nth (Z.to_nat j) vs 0 in
    flat_map (fun l =>
      let p_value := model (j * num_vars + l) in
      let q_value := model (num_vars * k + j * num_vars + l) in
      [if p_value then - (1 + vj * num_vars + l) else 1 + vj * num_vars + l;
       if q_value then - (1 + num_vars * k + vj * num_vars + l)
       else 1 + num_vars * k + vj * num_vars + l])
      (zrange num_vars))
    (zrange (Z.of_nat (length vs))).

(** The sequence of [vs] visited by [do { ... } while
    (std::next_permutation(vs.begin(), vs.end()))] from the sorted vector:
    every permutation once, in lexicographic order. *)
Fixpoint picks (l : list Z) : list (Z * list Z) :=
  match l with
  | [] => []
  | x :: t => (x, t) :: map (fun p => (fst p, x :: snd p)) (picks t)
  end.

Fixpoint perms_aux (fuel : nat) (l : list Z) : list (list Z) :=
  match fuel with
  | O => [[]]
  | S f =>
      match l with
      | [] => [[]]
      | _ => flat_map (fun p => map (cons (fst p)) (perms_aux f (snd p)))
               (picks l)
      end
  end.

Definition permutations (l : list Z) : list (list Z) :=
  perms_aux (length l) l.

Definition blocking_clauses (num_vars k : Z) (model : Z -> bool)
  : list (list Z) :=
  map (blocking_clause num_vars k model) (permutations (zrange k)).

(** ** The solve-extract-block loop (lines 162-240) and the driver *)

(** What one pass of the [for k] body ends in: a [return { esop }], the
    solver reporting UNSAT with the solution list, a solver loop that had
    not ended within [fuel] solver calls, or undefined behaviour (an [int]
    shift or overflow). *)
Inductive k_result :=
  | KReturn (e : esop)
  | KDone (esops : list esop)
  | KOutOfFuel
  | KUndefined.

Section Driver.

Variable X : externals.

(** [while (auto result = solver.solve(constraints)) { ... }] with at most
    [fuel] solver calls. *)
Fixpoint solve_loop (fuel : nat) (num_vars k : Z) (one_esop : bool)
  (cs : constraints) (esops : list esop) : k_result :=
  match fuel with
  | O => KOutOfFuel
  | S fuel' =>
      match solve X cs with
      | None => KDone esops
      | Some model =>
          let e := extract_esop num_vars k model in
          match e with
          | [] => KReturn e
          | _ =>
              if one_esop then KReturn e
              else
                let esops' := esops ++ [sort_esop X num_vars e] in
                let cs' := fold_left add_clause
                             (blocking_clauses num_vars k model) cs in
                solve_loop fuel' num_vars k one_esop cs' esops'
          end
      end
  end.

(** The body of [for (auto k = 1u; k <= max_number_of_cubes; ++k)]: encode,
    preprocess, solve.  [sid] is an [int]: past [INT_MAX] its increments
    overflow.  The CNF dump only writes a file and is left out. *)
Definition run_k (fuel : nat) (binary : list ascii) (num_vars : Z)
  (one_esop : bool) (k : Z) (esops : list esop) : k_result :=
  match encode binary num_vars k with
  | None => KUndefined
  | Some st =>
      if INT_MAX <? sid st then KUndefined
      else
        let cs0 := gauss_elimination X (cs st) in
        let cs1 := xor_clauses_to_cnf X (sid st) cs0 in
        let cs2 := cnf_symmetry_breaking X cs1 in
        solve_loop fuel num_vars k one_esop cs2 esops
  end.

Inductive outcome :=
  | Ok (esops : list esop)
  | Aborted      (* an assert fails *)
  | Undefined    (* undefined behaviour of the C++ code *)
  | Diverges     (* the k loop never ends *)
  | OutOfFuel.   (* a solver loop did not end within the fuel *)

Fixpoint k_loop (fuel : nat) (binary : list ascii) (num_vars : Z)
  (one_esop : bool) (ks : list Z) (esops : list esop)
  (on_exit : list esop -> outcome) : outcome :=
  match ks with
  | [] => on_exit esops
  | k :: ks' =>
      match run_k fuel binary num_vars one_esop k esops with
      | KReturn e => Ok [e]
      | KDone es =>
          if Nat.ltb 0 (length es) then Ok es
          else k_loop fuel binary num_vars one_esop ks' es on_exit
      | KOutOfFuel => OutOfFuel
      | KUndefined => Undefined
      end
  end.

(** When [maximum_cubes] is [UINT_MAX] the condition [k <= max] never fails:
    [k] wraps to 0, the pass for [k = 0] runs, and from [k = 1] on the
    passes repeat the earlier ones (the solver is deterministic), so the
    loop only ends if the pass for 0 ends it. *)
Definition loop_exit (fuel : nat) (binary : list ascii) (num_vars : Z)
  (one_esop : bool) (max : Z) (esops : list esop) : outcome :=
  if max =? UINT_MAX
  then k_loop fuel binary num_vars one_esop [0] esops (fun _ => Diverges)
  else Ok esops.

(** [num_vars = log2(binary.size())]: [std::log2(0)] is [-inf], whose
    conversion to [int] is undefined; otherwise the integer part of the
    logarithm. *)
Definition num_vars_of (size : Z) : option Z :=
  if size =? 0 then None else Some (Z.log2 size).

(** The asserts are checked (a build without [NDEBUG]). *)
Definition exact_synthesis_from_binary_string (fuel : nat)
  (binary : list ascii) (cfg : config) : outcome :=
  let max := max_number_of_cubes cfg in
  let one_esop := one_esop_of cfg in
  let size := Z.of_nat (length binary) in
  match num_vars_of size with
  | None => Undefined
  | Some num_vars =>
      if 64 <=? num_vars then Undefined
      else if negb (size =? Z.shiftl 1 num_vars) then Aborted
      else if 32 <? num_vars then Aborted
      else
        k_loop fuel binary num_vars one_esop
          (map Z.of_nat (seq 1 (Z.to_nat max))) []
          (loop_exit fuel binary num_vars one_esop max)
  end.

End Driver.

(** ** A concrete instance of the collaborators

    A complete solver by exhaustive search over the variables of the
    constraint set, preprocessing stages that leave the set as it is, and
    a sort that keeps the order. *)

Definition vars_of (cs : constraints) : list Z :=
  nodup Z.eq_dec
    (flat_map (map Z.abs) (clauses cs) ++ flat_map (@fst _ _) (xor_clauses cs)).

Fixpoint lookup (acc : list (Z * bool)) (v : Z) : bool :=
  match acc with
  | [] => false
  | (w, b) :: t => if w =? v then b else lookup t v
  end.

Fixpoint search (cs : constraints) (vs : list Z) (acc : list (Z * bool))
  : option (list (Z * bool)) :=
  match vs with
  | [] => if sat (lookup acc) cs then Some acc else None
  | v :: vs' =>
      match search cs vs' ((v, false) :: acc) with
      | Some r => Some r
      | None => search cs vs' ((v, true) :: acc)
      end
  end.

Definition brute_force_solve (cs : constraints) : option (Z -> bool) :=
  match search cs (vars_of cs) [] with
  | None => None
  | Some acc => Some (fun i => lookup acc (i + 1))
  end.

Definition brute_force : externals := {|
  solve := brute_force_solve;
  gauss_elimination := fun cs => cs;
  xor_clauses_to_cnf := fun _ cs => cs;
  cnf_symmetry_breaking := fun cs => cs;
  sort_esop := fun _ e => e |}.

Definition cfg_of (max : Z) (one : bool) : config :=
  mk_config (Some max) None (Some one).

(** ** Notions used by the statements *)

(** The parity of a list of booleans. *)
Definition xor_list (l : list bool) : bool := fold_left xorb l false.

(** Term [j] of the assignment [a] is compatible with the row [r]: no
    literal of the term contradicts a bit of [r]. *)
Definition compat (a : Z -> bool) (num_vars k j r : Z) : bool :=
  forallb (fun l => if get_bit r l then negb (a (q_var num_vars k j l))
                    else negb (a (p_var num_vars j l)))
    (zrange num_vars).

(** Every variable id of the constraint set is positive and below [s]. *)
Definition vars_below (s : Z) (cs : constraints) : Prop :=
  Forall (Forall (fun x => 0 < Z.abs x < s)) (clauses cs) /\
  Forall (fun x => Forall (fun v => 0 < v < s) (fst x)) (xor_clauses cs).

(** The ESOP [e] reproduces every defined symbol of the table with
    [num_vars] inputs. *)
Definition computes (num_vars : Z) (binary : list ascii) (e : esop) : Prop :=
  forall r, 0 <= r < 2 ^ num_vars -> is_defined (char_at binary r) = true ->
    esop_eval e r = (char_at binary r =? "1")%char.

(** A cube over the [num_vars] inputs: its literals are on variables
    [0 .. num_vars - 1] and its polarity bits lie inside its mask. *)
Definition cube_over (num_vars : Z) (c : cube) : bool :=
  (0 <=? mask c) && (mask c <? 2 ^ num_vars)
  && (Z.land (bits c) (Z.lnot (mask c)) =? 0).

(** Some ESOP over the [num_vars] inputs with at most [k] cubes computes
    the table. *)
Definition exists_esop (num_vars : Z) (binary : list ascii) (k : Z) : Prop :=
  exists e, Z.of_nat (length e) <= k /\
    Forall (fun c => cube_over num_vars c = true) e /\
    computes num_vars binary e.

(** The decoding of a model as section 4.3 of the specification words it,
    to be compared with [extract_esop].  The pair (p,q) of term [j] and variable [l] is don't-care (0,0), a
    positive literal (1,0), a negative literal (0,1) or marks the term void
    (1,1); void terms are left out.  [bitset f n] is the set of the
    variables [l < n] with [f l], as a bit mask. *)
Definition bitset (f : Z -> bool) (n : Z) : Z :=
  fold_left (fun acc l => if f l then Z.setbit acc l else acc) (zrange n) 0.

Definition void_term (num_vars k : Z) (model : Z -> bool) (j : Z) : bool :=
  existsb (fun l => model (j * num_vars + l)
                    && model (num_vars * k + j * num_vars + l))
    (zrange num_vars).

Definition decode_term (num_vars k : Z) (model : Z -> bool) (j : Z)
  : option cube :=
  let p l := model (j * num_vars + l) in
  let q l := model (num_vars * k + j * num_vars + l) in
  if void_term num_vars k model j then None
  else Some (mk_cube (bitset p num_vars) (bitset (fun l => p l || q l) num_vars)).

Definition decode_esop (num_vars k : Z) (model : Z -> bool) : esop :=
  flat_map (fun j => match decode_term num_vars k model j with
                     | Some c => [c]
                     | None => []
                     end) (zrange k).

(** The assignment giving the p-variable of term [j] and variable [l] the
    value [P j l] and its q-variable the value [Q j l]. *)
Definition pattern_asg (num_vars k : Z) (P Q : Z -> Z -> bool) (v : Z) : bool :=
  let i := v - 1 in
  if i <? num_vars * k then P (i / num_vars) (i mod num_vars)
  else Q ((i - num_vars * k) / num_vars) ((i - num_vars * k) mod num_vars).

(** The pattern of an ESOP placed in the first slots; the slots past its
    end are void. *)
Definition esop_P (e : esop) (j l : Z) : bool :=
  if (Z.to_nat j <? length e)%nat
  then let c := nth (Z.to_nat j) e cube_empty in
       Z.testbit (mask c) l && Z.testbit (bits c) l
  else l =? 0.

Definition esop_Q (e : esop) (j l : Z) : bool :=
  if (Z.to_nat j <? length e)%nat
  then let c := nth (Z.to_nat j) e cube_empty in
       Z.testbit (mask c) l && negb (Z.testbit (bits c) l)
  else l =? 0.

(** What an ESOP found by the pass for [k] satisfies when no smaller
    number of cubes suffices: it computes the table, its cubes are over the
    inputs, and it is empty or has exactly [k] cubes. *)
Definition pass_ok (num_vars : Z) (binary : list ascii) (k : Z) (e : esop)
  : Prop :=
  computes num_vars binary e /\
  Forall (fun c => cube_over num_vars c = true) e /\
  (e = [] \/ Z.of_nat (length e) = k).

(** The cube decoded from slot [j] of a model that does not void it. *)
Definition slot_cube (num_vars k : Z) (model : Z -> bool) (j : Z) : cube :=
  mk_cube (bitset (fun l => model (j * num_vars + l)) num_vars)
    (bitset (fun l => model (j * num_vars + l)
                      || model (num_vars * k + j * num_vars + l)) num_vars).

(** The values of the p- and q-variables of a model, in solver order. *)
Definition pq_values (num_vars k : Z) (model : Z -> bool) : list bool :=
  map model (zrange (2 * num_vars * k)).

(** All boolean vectors of length [n]. *)
Fixpoint bool_lists (n : nat) : list (list bool) :=
  match n with
  | O => [[]]
  | S n' => map (cons false) (bool_lists n') ++ map (cons true) (bool_lists n')
  end.

(** A property of every ESOP a pass or a call ends with. *)
Definition kres_ok (P : esop -> Prop) (r : k_result) : Prop :=
  match r with
  | KReturn e => P e
  | KDone es => Forall P es
  | _ => True
  end.

Definition outcome_ok (P : esop -> Prop) (o : outcome) : Prop :=
  match o with Ok es => Forall P es | _ => True end.

(** The number of rows among [rows] whose symbol is '0' or '1': the rows
    the encoder does not skip. *)
Definition count_defined (binary : list ascii) (rows : list Z) : nat :=
  length (filter (fun r => is_defined (char_at binary r)) rows).

(** * Proofs *)

(** ** Ranges and folds *)

Lemma in_zrange (x n : Z) : In x (zrange n) <-> 0 <= x < n.
Proof.
  unfold zrange; rewrite in_map_iff; split.
  - intros [i [<- Hi]]; apply in_seq in Hi; lia.
  - intros H; exists (Z.to_nat x); rewrite in_seq; split; lia.
Qed.

Lemma zrange_length (n : Z) : length (zrange n) = Z.to_nat n.
Proof. unfold zrange; rewrite length_map, length_seq; reflexivity. Qed.

Lemma nth_map_zrange {A} (f : Z -> A) (d : A) (n j : Z) :
  0 <= j < n -> nth (Z.to_nat j) (map f (zrange n)) d = f j.
Proof.
  intros Hj; unfold zrange; rewrite map_map.
  rewrite nth_indep with (d' := f 0) by (rewrite length_map, length_seq; lia).
  rewrite (map_nth (fun x => f (Z.of_nat x)) _ 0%nat), seq_nth by lia.
  f_equal; lia.
Qed.

Lemma zrange_succ (n : Z) : 0 <= n -> zrange (n + 1) = zrange n ++ [n].
Proof.
  intros Hn; unfold zrange.
  replace (Z.to_nat (n + 1)) with (S (Z.to_nat n)) by lia.
  rewrite seq_S, map_app; simpl; f_equal; f_equal; lia.
Qed.

Lemma NoDup_zrange (n : Z) : NoDup (zrange n).
Proof.
  unfold zrange; apply Finite.Injective_map_NoDup; [intros x y; lia|].
  apply seq_NoDup.
Qed.

Lemma fold_left_ext {A B} (f g : A -> B -> A) (l : list B) (a : A) :
  (forall x b, In b l -> f x b = g x b) -> fold_left f l a = fold_left g l a.
Proof.
  revert a; induction l as [|b l IH]; intros a H; simpl; [reflexivity|].
  rewrite H by (left; reflexivity); apply IH; intros; apply H; right; auto.
Qed.

Lemma fold_add_clause {B} (f : B -> list Z) (l : list B) (cs : constraints) :
  fold_left (fun cs x => add_clause cs (f x)) l cs
  = mk_constraints (clauses cs ++ map f l) (xor_clauses cs).
Proof.
  revert cs; induction l as [|x l IH]; intros cs; simpl.
  - rewrite app_nil_r; destruct cs; reflexivity.
  - rewrite IH; simpl; rewrite <- app_assoc; reflexivity.
Qed.

Lemma fold_fold_add_clause {B C} (g : B -> C -> list Z) (L : list C)
  (J : list B) (cs : constraints) :
  fold_left (fun cs j => fold_left (fun cs l => add_clause cs (g j l)) L cs)
    J cs
  = mk_constraints (clauses cs ++ flat_map (fun j => map (g j) L) J)
      (xor_clauses cs).
Proof.
  revert cs; induction J as [|j J IH]; intros cs; simpl.
  - rewrite app_nil_r; destruct cs; reflexivity.
  - rewrite fold_add_clause, IH; simpl; rewrite <- app_assoc; reflexivity.
Qed.

(** ** C3: what the encoder adds for one row *)

(** The row encoder written out: the clauses and the XOR constraint a
    defined row appends. *)
Lemma encode_row_eq (binary : list ascii) (num_vars k minterm : Z)
  (st : enc_state) :
  let ch := char_at binary minterm in
  let z j := sid st + j in
  encode_row binary num_vars k minterm st =
  if is_defined ch then
    mk_enc (sid st + k) (sample_counter st + 1)
      (mk_constraints
        (clauses (cs st)
         ++ flat_map (fun j =>
              map (fun l => if get_bit minterm l
                            then [- z j; - q_var num_vars k j l]
                            else [- z j; - p_var num_vars j l])
                (zrange num_vars)) (zrange k)
         ++ map (fun j =>
              z j :: map (fun l => if get_bit minterm l
                                   then q_var num_vars k j l
                                   else p_var num_vars j l)
                       (zrange num_vars)) (zrange k))
        (xor_clauses (cs st) ++ [(map z (zrange k), (ch =? "1")%char)]))
  else st.
Proof.
  intros ch z; unfold encode_row; fold ch.
  destruct (is_defined ch); simpl; [|reflexivity].
  set (zv := map (fun j => sid st + j) (zrange k)).
  assert (Hz : forall j, In j (zrange k) -> nth (Z.to_nat j) zv 0 = z j).
  { intros j Hj; apply in_zrange in Hj; unfold zv, z.
    apply nth_map_zrange; lia. }
  assert (H1 :
    fold_left (fun cs j =>
      fold_left (fun cs l =>
        if get_bit minterm l
        then add_clause cs [- nth (Z.to_nat j) zv 0; - q_var num_vars k j l]
        else add_clause cs [- nth (Z.to_nat j) zv 0; - p_var num_vars j l])
        (zrange num_vars) cs)
      (zrange k) (cs st)
    = mk_constraints
        (clauses (cs st)
         ++ flat_map (fun j =>
              map (fun l => if get_bit minterm l
                            then [- z j; - q_var num_vars k j l]
                            else [- z j; - p_var num_vars j l])
                (zrange num_vars)) (zrange k))
        (xor_clauses (cs st))).
  { rewrite <- fold_fold_add_clause; apply fold_left_ext; intros cs0 j Hj.
    apply fold_left_ext; intros cs1 l _.
    rewrite Hz by exact Hj; destruct (get_bit minterm l); reflexivity. }
  rewrite H1.
  rewrite fold_left_ext with
    (g := fun cs j => add_clause cs
            (z j :: map (fun l => if get_bit minterm l
                                  then q_var num_vars k j l
                                  else p_var num_vars j l) (zrange num_vars))).
  2:{ intros cs0 j Hj; rewrite Hz by exact Hj; reflexivity. }
  rewrite fold_add_clause; simpl.
  rewrite <- app_assoc; reflexivity.
Qed.

(** Claim C3: for a row whose symbol is '0' or '1', the encoder appends
    exactly the implication clauses [{-z(j), -q(j,l)}] (row bit [l] is 1)
    or [{-z(j), -p(j,l)}] (row bit [l] is 0) for every term [j] and
    variable [l], then one converse clause [{z(j)} ∪ {q(j,l) : bit 1} ∪
    {p(j,l) : bit 0}] per term, then one XOR constraint over
    [z(0..k-1)] whose target is true iff the symbol is '1'; any other
    symbol adds nothing.  The z-variables of the row are
    [sid, ..., sid+k-1]. *)
Theorem encode_row_adds_exactly (binary : list ascii) (num_vars k minterm : Z)
  (st : enc_state) :
  let ch := char_at binary minterm in
  let z j := sid st + j in
  encode_row binary num_vars k minterm st =
  if is_defined ch then
    mk_enc (sid st + k) (sample_counter st + 1)
      (mk_constraints
        (clauses (cs st)
         ++ flat_map (fun j =>
              map (fun l => if get_bit minterm l
                            then [- z j; - q_var num_vars k j l]
                            else [- z j; - p_var num_vars j l])
                (zrange num_vars)) (zrange k)
         ++ map (fun j =>
              z j :: map (fun l => if get_bit minterm l
                                   then q_var num_vars k j l
                                   else p_var num_vars j l)
                       (zrange num_vars)) (zrange k))
        (xor_clauses (cs st) ++ [(map z (zrange k), (ch =? "1")%char)]))
  else st.
Proof.
  intros ch z; unfold encode_row; fold ch.
  destruct (is_defined ch); simpl; [|reflexivity].
  set (zv := map (fun j => sid st + j) (zrange k)).
  assert (Hz : forall j, In j (zrange k) -> nth (Z.to_nat j) zv 0 = z j).
  { intros j Hj; apply in_zrange in Hj; unfold zv, z.
    apply nth_map_zrange; lia. }
  assert (H1 :
    fold_left (fun cs j =>
      fold_left (fun cs l =>
        if get_bit minterm l
        then add_clause cs [- nth (Z.to_nat j) zv 0; - q_var num_vars k j l]
        else add_clause cs [- nth (Z.to_nat j) zv 0; - p_var num_vars j l])
        (zrange num_vars) cs)
      (zrange k) (cs st)
    = mk_constraints
        (clauses (cs st)
         ++ flat_map (fun j =>
              map (fun l => if get_bit minterm l
                            then [- z j; - q_var num_vars k j l]
                            else [- z j; - p_var num_vars j l])
                (zrange num_vars)) (zrange k))
        (xor_clauses (cs st))).
  { rewrite <- fold_fold_add_clause; apply fold_left_ext; intros cs0 j Hj.
    apply fold_left_ext; intros cs1 l _.
    rewrite Hz by exact Hj; destruct (get_bit minterm l); reflexivity. }
  rewrite H1.
  rewrite fold_left_ext with
    (g := fun cs j => add_clause cs
            (z j :: map (fun l => if get_bit minterm l
                                  then q_var num_vars k j l
                                  else p_var num_vars j l) (zrange num_vars))).
  2:{ intros cs0 j Hj; rewrite Hz by exact Hj; reflexivity. }
  rewrite fold_add_clause; simpl.
  rewrite <- app_assoc; reflexivity.
Qed.

(** ** The row loop visits the rows 0 .. 2^num_vars - 1 *)

Lemma row_bound_small (num_vars : Z) :
  0 <= num_vars <= 31 -> row_bound num_vars = Some (2 ^ num_vars).
Proof.
  intros Hn; unfold row_bound, shl_int.
  replace ((num_vars <? 0) || (32 <=? num_vars)) with false
    by (symmetry; apply orb_false_iff; split; apply Z.ltb_ge || apply Z.leb_gt; lia).
  simpl; rewrite Z.shiftl_1_l; unfold to_int32.
  assert (Hp : 0 < 2 ^ num_vars <= 2 ^ 31).
  { split; [apply Z.pow_pos_nonneg; lia|apply Z.pow_le_mono_r; lia]. }
  rewrite (Z.mod_small (2 ^ num_vars)) by lia.
  destruct (2 ^ num_vars <? 2 ^ 31) eqn:E; f_equal.
  - apply Z.mod_small; lia.
  - rewrite Zminus_mod, Z_mod_same_full, Z.sub_0_r, Z.mod_mod by lia.
    apply Z.mod_small; lia.
Qed.

Lemma row_loop_fold (binary : list ascii) (num_vars k bound : Z) :
  bound <= 2 ^ 32 ->
  forall fuel i st, 0 <= i < bound -> Z.to_nat (bound - 1 - i) = fuel ->
  row_loop binary num_vars k fuel i bound st
  = fold_left (fun st r => encode_row binary num_vars k r st)
      (map Z.of_nat (seq (Z.to_nat i) (S fuel))) st.
Proof.
  intros Hb fuel; induction fuel as [|fuel IH]; intros i st Hi Hf; simpl.
  - rewrite Z2Nat.id by lia; reflexivity.
  - rewrite Z.mod_small by lia.
    replace (i + 1 <? bound) with true by (symmetry; apply Z.ltb_lt; lia).
    rewrite IH by lia; rewrite Z2Nat.id by lia.
    replace (Z.to_nat (i + 1)) with (S (Z.to_nat i)) by lia; reflexivity.
Qed.

Lemma encode_fold (binary : list ascii) (num_vars k : Z) :
  0 <= num_vars <= 31 ->
  encode binary num_vars k
  = Some (fold_left (fun st r => encode_row binary num_vars k r st)
            (zrange (2 ^ num_vars))
            (mk_enc (1 + 2 * num_vars * k) 0 constraints_empty)).
Proof.
  intros Hn; unfold encode; rewrite row_bound_small by exact Hn.
  assert (Hp : 0 < 2 ^ num_vars <= 2 ^ 31).
  { split; [apply Z.pow_pos_nonneg; lia|apply Z.pow_le_mono_r; lia]. }
  rewrite row_loop_fold with (i := 0) by lia.
  f_equal; unfold zrange; f_equal.
  replace (S (Z.to_nat (2 ^ num_vars - 1))) with (Z.to_nat (2 ^ num_vars))
    by lia; reflexivity.
Qed.

(** ** Satisfaction of one encoded row *)

Lemma forallb_and_distr {A} (f g : A -> bool) (l : list A) :
  forallb f l && forallb g l = forallb (fun x => f x && g x) l.
Proof.
  induction l as [|x l IH]; simpl; [reflexivity|].
  rewrite <- IH; destruct (f x), (g x), (forallb f l), (forallb g l); reflexivity.
Qed.

Lemma forallb_flat_map {A B} (f : B -> bool) (g : A -> list B) (l : list A) :
  forallb f (flat_map g l) = forallb (fun x => forallb f (g x)) l.
Proof.
  induction l as [|x l IH]; simpl; [reflexivity|].
  rewrite forallb_app, IH; reflexivity.
Qed.

Lemma forallb_map {A B} (f : B -> bool) (g : A -> B) (l : list A) :
  forallb f (map g l) = forallb (fun x => f (g x)) l.
Proof. induction l as [|x l IH]; simpl; congruence. Qed.

Lemma existsb_map {A B} (f : B -> bool) (g : A -> B) (l : list A) :
  existsb f (map g l) = existsb (fun x => f (g x)) l.
Proof. induction l as [|x l IH]; simpl; congruence. Qed.

Lemma forallb_or_const {A} (b : bool) (f : A -> bool) (l : list A) :
  forallb (fun x => b || f x) l = b || forallb f l.
Proof.
  induction l as [|x l IH]; simpl; [destruct b; reflexivity|].
  rewrite IH; destruct b, (f x); reflexivity.
Qed.

Lemma forallb_ext_in {A} (f g : A -> bool) (l : list A) :
  (forall x, In x l -> f x = g x) -> forallb f l = forallb g l.
Proof.
  induction l as [|x l IH]; intros H; simpl; [reflexivity|].
  rewrite H by (left; reflexivity); rewrite IH; auto.
  intros; apply H; right; auto.
Qed.

Lemma existsb_ext_in {A} (f g : A -> bool) (l : list A) :
  (forall x, In x l -> f x = g x) -> existsb f l = existsb g l.
Proof.
  induction l as [|x l IH]; intros H; simpl; [reflexivity|].
  rewrite H by (left; reflexivity); rewrite IH; auto.
  intros; apply H; right; auto.
Qed.

Lemma existsb_negb_forallb {A} (f : A -> bool) (l : list A) :
  existsb f l = negb (forallb (fun x => negb (f x)) l).
Proof.
  induction l as [|x l IH]; simpl; [reflexivity|].
  rewrite IH; destruct (f x), (forallb _ l); reflexivity.
Qed.

Lemma lit_val_pos (a : Z -> bool) (x : Z) : 0 < x -> lit_val a x = a x.
Proof. intros H; unfold lit_val; replace (0 <? x) with true by lia; reflexivity. Qed.

Lemma lit_val_neg (a : Z -> bool) (x : Z) :
  0 < x -> lit_val a (- x) = negb (a x).
Proof.
  intros H; unfold lit_val; replace (0 <? - x) with false by lia.
  rewrite Z.opp_involutive; reflexivity.
Qed.

(** The implication clauses and the converse clause of term [j] hold
    together iff the z-variable equals the compatibility of the term. *)
Lemma term_clauses_sat (a : Z -> bool) (z : Z) (xs : list Z) :
  0 < z -> Forall (fun x => 0 < x) xs ->
  forallb (fun x => clause_sat a [- z; - x]) xs && clause_sat a (z :: xs)
  = Bool.eqb (a z) (forallb (fun x => negb (a x)) xs).
Proof.
  intros Hz Hxs.
  rewrite forallb_ext_in with (g := fun x => negb (a z) || negb (a x)).
  2:{ intros x Hx; rewrite Forall_forall in Hxs; specialize (Hxs x Hx).
      unfold clause_sat; simpl; rewrite !lit_val_neg by lia.
      destruct (a z), (a x); reflexivity. }
  rewrite forallb_or_const; unfold clause_sat; simpl.
  rewrite lit_val_pos by lia.
  rewrite existsb_ext_in with (g := a).
  2:{ intros x Hx; rewrite Forall_forall in Hxs; apply lit_val_pos; auto. }
  rewrite existsb_negb_forallb.
  destruct (a z), (forallb _ xs); reflexivity.
Qed.

Lemma p_var_pos (num_vars j l : Z) :
  0 <= num_vars -> 0 <= j -> 0 <= l -> 0 < p_var num_vars j l.
Proof. intros; unfold p_var; nia. Qed.

Lemma q_var_pos (num_vars k j l : Z) :
  0 <= num_vars -> 0 <= k -> 0 <= j -> 0 <= l -> 0 < q_var num_vars k j l.
Proof. intros; unfold q_var; nia. Qed.

(** The constraints of the encoding hold after one row iff they held
    before and, for a defined row, every z-variable equals the
    compatibility of its term and the z-variables have the row's parity. *)
Lemma sat_encode_row (a : Z -> bool) (binary : list ascii)
  (num_vars k r : Z) (st : enc_state) :
  0 <= num_vars -> 0 <= k -> 0 < sid st ->
  sat a (cs (encode_row binary num_vars k r st))
  = sat a (cs st)
    && (if is_defined (char_at binary r)
        then forallb (fun j => Bool.eqb (a (sid st + j))
                                 (compat a num_vars k j r)) (zrange k)
             && Bool.eqb (xor_list (map a (map (fun j => sid st + j) (zrange k))))
                  (char_at binary r =? "1")%char
        else true).
Proof.
  intros Hn Hk Hs.
  rewrite encode_row_eq; cbv zeta.
  destruct (is_defined (char_at binary r)); [|rewrite andb_true_r; reflexivity].
  set (lit := fun j l => if get_bit r l then q_var num_vars k j l
                         else p_var num_vars j l).
  assert (HIV :
    forallb (clause_sat a) (flat_map (fun j =>
      map (fun l => if get_bit r l
                    then [- (sid st + j); - q_var num_vars k j l]
                    else [- (sid st + j); - p_var num_vars j l])
        (zrange num_vars)) (zrange k))
    && forallb (clause_sat a) (map (fun j =>
         sid st + j :: map (fun l => if get_bit r l then q_var num_vars k j l
                                     else p_var num_vars j l) (zrange num_vars))
         (zrange k))
    = forallb (fun j => Bool.eqb (a (sid st + j)) (compat a num_vars k j r))
        (zrange k)).
  { rewrite forallb_flat_map, forallb_map, forallb_and_distr.
    apply forallb_ext_in; intros j Hj.
    apply in_zrange in Hj.
    transitivity (forallb (fun x => clause_sat a [- (sid st + j); - x])
                    (map (lit j) (zrange num_vars))
                  && clause_sat a (sid st + j :: map (lit j) (zrange num_vars))).
    { rewrite !forallb_map; f_equal.
      apply forallb_ext_in; intros l _; unfold lit.
      destruct (get_bit r l); reflexivity. }
    rewrite term_clauses_sat.
    - f_equal; unfold compat; rewrite forallb_map; apply forallb_ext_in.
      intros l _; unfold lit; destruct (get_bit r l); reflexivity.
    - lia.
    - apply Forall_forall; intros x Hx; apply in_map_iff in Hx.
      destruct Hx as [l [<- Hl]]; apply in_zrange in Hl; unfold lit.
      destruct (get_bit r l); [apply q_var_pos|apply p_var_pos]; lia. }
  unfold sat; cbn [clauses xor_clauses cs].
  rewrite !forallb_app, <- HIV.
  unfold xor_list; cbn [forallb xor_sat fst snd].
  destruct (forallb (clause_sat a) (clauses (cs st))),
    (forallb (xor_sat a) (xor_clauses (cs st))); cbn [andb];
    rewrite ?andb_true_r, ?andb_false_r; try reflexivity.
Qed.

(** ** Parity *)

Lemma fold_xorb_acc (l : list bool) (b : bool) :
  fold_left xorb l b = xorb b (fold_left xorb l false).
Proof.
  revert b; induction l as [|x l IH]; intros b; simpl.
  - rewrite xorb_false_r; reflexivity.
  - rewrite IH, (IH x), xorb_assoc; reflexivity.
Qed.

Lemma xor_list_cons (b : bool) (l : list bool) :
  xor_list (b :: l) = xorb b (xor_list l).
Proof. unfold xor_list; simpl; apply fold_xorb_acc. Qed.

Lemma xor_list_app (l l' : list bool) :
  xor_list (l ++ l') = xorb (xor_list l) (xor_list l').
Proof. unfold xor_list; rewrite fold_left_app; apply fold_xorb_acc. Qed.

Lemma xor_list_perm (l l' : list bool) :
  Permutation l l' -> xor_list l = xor_list l'.
Proof.
  induction 1.
  - reflexivity.
  - rewrite !xor_list_cons; congruence.
  - rewrite !xor_list_cons, <- !xorb_assoc, (xorb_comm y x); reflexivity.
  - congruence.
Qed.

Lemma esop_eval_perm (e e' : esop) (r : Z) :
  Permutation e e' -> esop_eval e r = esop_eval e' r.
Proof.
  intros H; apply xor_list_perm, Permutation_map, H.
Qed.

(** ** The whole encoding: models give the row equations *)

Lemma sid_encode_row (binary : list ascii) (num_vars k r : Z) (st : enc_state) :
  sid (encode_row binary num_vars k r st)
  = if is_defined (char_at binary r) then sid st + k else sid st.
Proof.
  rewrite encode_row_eq; cbv zeta.
  destruct (is_defined (char_at binary r)); reflexivity.
Qed.

Lemma sat_encode_rows (a : Z -> bool) (binary : list ascii) (num_vars k : Z) :
  0 <= num_vars -> 0 <= k ->
  forall rows st, 0 < sid st ->
  sat a (cs (fold_left (fun st r => encode_row binary num_vars k r st) rows st))
    = true ->
  sat a (cs st) = true /\
  forall r, In r rows -> is_defined (char_at binary r) = true ->
    xor_list (map (fun j => compat a num_vars k j r) (zrange k))
    = (char_at binary r =? "1")%char.
Proof.
  intros Hn Hk rows; induction rows as [|r rows IH]; intros st Hs Hsat.
  - split; [exact Hsat|intros r []].
  - simpl in Hsat; apply IH in Hsat.
    2:{ rewrite sid_encode_row; destruct (is_defined _); lia. }
    destruct Hsat as [Hsat Hrows].
    rewrite sat_encode_row in Hsat by lia.
    apply andb_true_iff in Hsat; destruct Hsat as [Hsat Hrow].
    split; [exact Hsat|].
    intros r' [<-|Hin] Hdef; [|apply Hrows; auto].
    rewrite Hdef in Hrow; apply andb_true_iff in Hrow.
    destruct Hrow as [Hz Hx].
    apply Bool.eqb_prop in Hx; rewrite <- Hx; f_equal.
    rewrite map_map; apply map_ext_in; intros j Hj.
    rewrite forallb_forall in Hz; specialize (Hz j Hj).
    apply Bool.eqb_prop in Hz; symmetry; exact Hz.
Qed.

(** ** Extraction *)

Lemma testbit_pow2 (i t : Z) :
  0 <= i -> Z.testbit (Z.shiftl 1 i) t = (t =? i).
Proof.
  intros Hi; rewrite Z.shiftl_1_l.
  destruct (Z.ltb_spec t 0) as [Ht|Ht].
  - rewrite Z.testbit_neg_r by lia; symmetry; apply Z.eqb_neq; lia.
  - rewrite Z.pow2_bits_eqb by lia; apply Z.eqb_sym.
Qed.

Lemma testbit_add_literal_mask (c : cube) (i t : Z) (pol : bool) :
  0 <= i ->
  Z.testbit (mask (add_literal c i pol)) t = Z.testbit (mask c) t || (t =? i).
Proof.
  intros Hi; simpl; rewrite Z.lor_spec, testbit_pow2 by exact Hi; reflexivity.
Qed.

Lemma testbit_add_literal_bits (c : cube) (i t : Z) (pol : bool) :
  0 <= i -> 0 <= t ->
  Z.testbit (bits (add_literal c i pol)) t
  = if t =? i then pol else Z.testbit (bits c) t.
Proof.
  intros Hi Ht; simpl; destruct pol.
  - rewrite Z.lor_spec, testbit_pow2 by exact Hi.
    destruct (t =? i); rewrite ?orb_true_r, ?orb_false_r; reflexivity.
  - rewrite Z.land_spec, Z.lnot_spec, testbit_pow2 by assumption.
    destruct (t =? i); rewrite ?andb_true_r, ?andb_false_r; reflexivity.
Qed.

Section Term.

Variables (num_vars k : Z) (model : Z -> bool) (j : Z).
Let P l := model (j * num_vars + l).
Let Q l := model (num_vars * k + j * num_vars + l).

Lemma extract_term_spec (i : Z) :
  0 <= i ->
  let (c, cancel) :=
    fold_left (fun (acc : cube * bool) l =>
      let (c, cancel_cube) := acc in
      let p_value := model (j * num_vars + l) in
      let q_value := model (num_vars * k + j * num_vars + l) in
      if p_value && q_value then (c, true)
      else if p_value then (add_literal c l true, cancel_cube)
      else if q_value then (add_literal c l false, cancel_cube)
      else (c, cancel_cube)) (zrange i) (cube_empty, false) in
  cancel = existsb (fun l => P l && Q l) (zrange i) /\
  forall t, 0 <= t ->
    Z.testbit (mask c) t = (t <? i) && xorb (P t) (Q t) /\
    Z.testbit (bits c) t = (t <? i) && P t && negb (Q t).
Proof.
  intros Hi; pattern i; apply Z.right_induction with (z := 0); auto.
  - intros x y ->; reflexivity.
  - simpl; split; [reflexivity|]; intros t Ht.
    rewrite Z.testbit_0_l; replace (t <? 0) with false by lia; auto.
  - intros i' Hi' IH; rewrite <- Z.add_1_r.
    rewrite zrange_succ, fold_left_app by exact Hi'; simpl.
    destruct (fold_left _ (zrange i') (cube_empty, false)) as [c cancel].
    destruct IH as [Hc Hb].
    rewrite existsb_app; simpl; rewrite orb_false_r, <- Hc.
    fold (P i') (Q i').
    assert (Hlt : forall t, 0 <= t -> (t <? i' + 1) = (t <? i') || (t =? i')).
    { intros t Ht; destruct (Z.ltb_spec t (i' + 1)), (Z.ltb_spec t i'),
        (Z.eqb_spec t i'); simpl; lia. }
    destruct (P i') eqn:HP, (Q i') eqn:HQ; cbn [andb orb negb xorb];
      (split; [rewrite ?orb_true_r, ?orb_false_r; reflexivity|]);
      intros t Ht; specialize (Hb t Ht); rewrite Hlt by exact Ht;
      rewrite ?testbit_add_literal_mask, ?testbit_add_literal_bits by lia;
      destruct Hb as [Hm Hbt]; rewrite ?Hm, ?Hbt;
      (destruct (Z.eqb_spec t i') as [->|Hne];
       [rewrite ?Z.eqb_refl, Z.ltb_irrefl, ?HP, ?HQ in *; split; reflexivity
       |replace (t =? i') with false in * by (symmetry; apply Z.eqb_neq; exact Hne);
        split; destruct (t <? i'), (P t), (Q t); reflexivity]).
Qed.

End Term.

Lemma cube_covers_iff (c : cube) (r : Z) :
  cube_covers c r = true <->
  forall t, 0 <= t ->
    xorb (Z.testbit r t) (Z.testbit (bits c) t) && Z.testbit (mask c) t = false.
Proof.
  unfold cube_covers; rewrite Z.eqb_eq; split.
  - intros H t Ht; rewrite <- Z.lxor_spec, <- Z.land_spec, H.
    apply Z.testbit_0_l.
  - intros H; apply Z.bits_inj_0; intros t.
    destruct (Z.ltb_spec t 0); [apply Z.testbit_neg_r; lia|].
    rewrite Z.land_spec, Z.lxor_spec; apply H; lia.
Qed.

Lemma compat_model (num_vars k j r : Z) (model : Z -> bool) :
  compat (asg_of model) num_vars k j r
  = forallb (fun l => if get_bit r l
                      then negb (model (num_vars * k + j * num_vars + l))
                      else negb (model (j * num_vars + l))) (zrange num_vars).
Proof.
  unfold compat, asg_of, p_var, q_var; apply forallb_ext_in; intros l _.
  destruct (get_bit r l); do 2 f_equal; ring.
Qed.

(** A term read from the model covers a row iff it is compatible with it;
    a cancelled term is compatible with no row. *)
Lemma extract_term_covers (num_vars k j r : Z) (model : Z -> bool) :
  0 <= num_vars ->
  let (c, cancel) := extract_term num_vars k model j in
  if cancel then compat (asg_of model) num_vars k j r = false
  else cube_covers c r = compat (asg_of model) num_vars k j r.
Proof.
  intros Hn.
  pose proof (extract_term_spec num_vars k model j num_vars Hn) as H.
  unfold extract_term; destruct (fold_left _ _ _) as [c cancel].
  destruct H as [Hc Hb]; rewrite compat_model.
  destruct cancel.
  - symmetry in Hc; apply existsb_exists in Hc.
    destruct Hc as [l [Hl Hpq]]; apply andb_true_iff in Hpq.
    destruct Hpq as [Hp Hq].
    apply not_true_iff_false; rewrite forallb_forall; intros Hall.
    specialize (Hall l Hl); rewrite Hp, Hq in Hall.
    destruct (get_bit r l); discriminate.
  - assert (Hnc : forall t, In t (zrange num_vars) ->
              model (j * num_vars + t)
              && model (num_vars * k + j * num_vars + t) = false).
    { intros t Ht; apply not_true_iff_false; intros Hpq.
      assert (Hex : existsb (fun l => model (j * num_vars + l)
                       && model (num_vars * k + j * num_vars + l))
                       (zrange num_vars) = true)
        by (apply existsb_exists; exists t; auto).
      congruence. }
    apply eq_true_iff_eq; rewrite cube_covers_iff, forallb_forall; split.
    + intros Hcov l Hl; specialize (Hnc l Hl); apply in_zrange in Hl.
      specialize (Hcov l (proj1 Hl)); destruct (Hb l (proj1 Hl)) as [Hm Hbt].
      rewrite Hm, Hbt in Hcov; replace (l <? num_vars) with true in Hcov by lia.
      unfold get_bit.
      destruct (Z.testbit r l), (model (j * num_vars + l)),
        (model (num_vars * k + j * num_vars + l)); simpl in *; congruence.
    + intros Hall t Ht; destruct (Hb t Ht) as [Hm Hbt]; rewrite Hm, Hbt.
      destruct (Z.ltb_spec t num_vars) as [Hlt|Hge];
        [|rewrite !andb_false_r; reflexivity].
      assert (Hin : In t (zrange num_vars)) by (apply in_zrange; lia).
      specialize (Hall t Hin).
      specialize (Hnc t Hin).
      unfold get_bit in Hall.
      destruct (Z.testbit r t), (model (j * num_vars + t)),
        (model (num_vars * k + j * num_vars + t)); simpl in *; congruence.
Qed.

Lemma esop_eval_app (e e' : esop) (r : Z) :
  esop_eval (e ++ e') r = xorb (esop_eval e r) (esop_eval e' r).
Proof.
  change (xor_list (map (fun c => cube_covers c r) (e ++ e'))
          = xorb (xor_list (map (fun c => cube_covers c r) e))
                 (xor_list (map (fun c => cube_covers c r) e'))).
  rewrite map_app; apply xor_list_app.
Qed.

(** The value of the extracted ESOP at a row is the parity of the
    compatibilities of the [k] terms. *)
Lemma extract_esop_eval (num_vars k r : Z) (model : Z -> bool) :
  0 <= num_vars ->
  esop_eval (extract_esop num_vars k model) r
  = xor_list (map (fun j => compat (asg_of model) num_vars k j r) (zrange k)).
Proof.
  intros Hn; unfold extract_esop.
  assert (Hg : forall L e0,
    esop_eval (fold_left (fun e j =>
      let (c, cancel_cube) := extract_term num_vars k model j in
      if cancel_cube then e else e ++ [c]) L e0) r
    = xorb (esop_eval e0 r)
        (xor_list (map (fun j => compat (asg_of model) num_vars k j r) L))).
  { intros L; induction L as [|j L IH]; intros e0; simpl.
    - rewrite xorb_false_r; reflexivity.
    - pose proof (extract_term_covers num_vars k j r model Hn) as Hj.
      destruct (extract_term num_vars k model j) as [c cancel].
      rewrite IH, xor_list_cons; destruct cancel.
      + rewrite Hj, xorb_false_l; reflexivity.
      + rewrite esop_eval_app, <- Hj, xorb_assoc; reflexivity. }
  rewrite Hg; reflexivity.
Qed.

(** ** Variable ids stay below [sid] *)

Lemma vars_below_mono (s s' : Z) (cs : constraints) :
  s <= s' -> vars_below s cs -> vars_below s' cs.
Proof.
  intros Hs [Hc Hx]; split.
  - eapply Forall_impl; [|exact Hc]; intros c Hc'.
    eapply Forall_impl; [|exact Hc']; intros x; cbv beta; lia.
  - eapply Forall_impl; [|exact Hx]; intros x Hx'.
    eapply Forall_impl; [|exact Hx']; intros v; cbv beta; lia.
Qed.

Lemma vars_below_encode_row (binary : list ascii) (num_vars k r : Z)
  (st : enc_state) :
  0 <= num_vars -> 0 <= k -> 1 + 2 * num_vars * k <= sid st ->
  vars_below (sid st) (cs st) ->
  vars_below (sid (encode_row binary num_vars k r st))
    (cs (encode_row binary num_vars k r st)).
Proof.
  intros Hn Hk Hs [Hc Hx].
  rewrite encode_row_eq; cbv zeta.
  destruct (is_defined (char_at binary r)); [|split; assumption].
  cbn [sid cs clauses xor_clauses].
  assert (Hpq : forall j l, 0 <= j < k -> 0 <= l < num_vars ->
            0 < p_var num_vars j l < sid st /\
            0 < q_var num_vars k j l < sid st).
  { intros j l Hj Hl; unfold p_var, q_var.
    assert (num_vars * j <= num_vars * (k - 1))
      by (apply Z.mul_le_mono_nonneg_l; lia).
    split; nia. }
  split.
  - apply Forall_app; split; [|apply Forall_app; split].
    + eapply Forall_impl; [|exact Hc]; intros c Hc'.
      eapply Forall_impl; [|exact Hc']; intros x; cbv beta; lia.
    + apply Forall_forall; intros c Hin.
      apply in_flat_map in Hin; destruct Hin as [j [Hj Hin]].
      apply in_map_iff in Hin; destruct Hin as [l [<- Hl]].
      apply in_zrange in Hj, Hl; destruct (Hpq j l Hj Hl).
      destruct (get_bit r l); repeat constructor; lia.
    + apply Forall_forall; intros c Hin.
      apply in_map_iff in Hin; destruct Hin as [j [<- Hj]].
      apply in_zrange in Hj; constructor; [lia|].
      apply Forall_forall; intros x Hin.
      apply in_map_iff in Hin; destruct Hin as [l [<- Hl]].
      apply in_zrange in Hl; destruct (Hpq j l Hj Hl).
      destruct (get_bit r l); lia.
  - apply Forall_app; split.
    + eapply Forall_impl; [|exact Hx]; intros x Hx'.
      eapply Forall_impl; [|exact Hx']; intros v; cbv beta; lia.
    + repeat constructor; cbn [fst].
      apply Forall_forall; intros v Hin.
      apply in_map_iff in Hin; destruct Hin as [j [<- Hj]].
      apply in_zrange in Hj; lia.
Qed.

Lemma encode_rows_inv (binary : list ascii) (num_vars k : Z) :
  0 <= num_vars -> 0 <= k ->
  forall rows st, 1 + 2 * num_vars * k <= sid st ->
  vars_below (sid st) (cs st) ->
  let st' := fold_left (fun st r => encode_row binary num_vars k r st) rows st in
  1 + 2 * num_vars * k <= sid st' /\ vars_below (sid st') (cs st').
Proof.
  intros Hn Hk rows; induction rows as [|r rows IH]; intros st Hs Hv; simpl.
  - split; assumption.
  - apply IH.
    + rewrite sid_encode_row; destruct (is_defined _); lia.
    + apply vars_below_encode_row; assumption.
Qed.

Lemma encode_inv (binary : list ascii) (num_vars k : Z) (st : enc_state) :
  0 <= num_vars -> 0 <= k -> encode binary num_vars k = Some st ->
  0 <= num_vars <= 31 /\
  st = fold_left (fun st r => encode_row binary num_vars k r st)
         (zrange (2 ^ num_vars))
         (mk_enc (1 + 2 * num_vars * k) 0 constraints_empty) /\
  1 + 2 * num_vars * k <= sid st /\ vars_below (sid st) (cs st).
Proof.
  intros Hn Hk He.
  assert (Hn31 : num_vars <= 31).
  { unfold encode, row_bound, shl_int in He.
    destruct (Z.leb_spec 32 num_vars); [|lia].
    rewrite orb_true_r in He; discriminate. }
  rewrite encode_fold in He by lia; injection He as <-.
  split; [lia|split; [reflexivity|]].
  apply encode_rows_inv; simpl; try lia.
  split; constructor.
Qed.

Lemma encode_none (binary : list ascii) (num_vars k : Z) :
  32 <= num_vars -> encode binary num_vars k = None.
Proof.
  intros Hn; unfold encode, row_bound, shl_int.
  replace (32 <=? num_vars) with true by lia; rewrite orb_true_r; reflexivity.
Qed.

Lemma sat_fold_add_clause (a : Z -> bool) (L : list (list Z)) (cs : constraints) :
  sat a (fold_left add_clause L cs) = sat a cs && forallb (clause_sat a) L.
Proof.
  rewrite (fold_add_clause (fun c => c)), map_id; unfold sat; simpl.
  rewrite forallb_app; destruct (forallb _ (clauses cs)), (forallb _ L),
    (forallb _ (xor_clauses cs)); reflexivity.
Qed.

(** Models of an encoding evaluate to the table's defined symbols. *)
Lemma encode_model_computes (binary : list ascii) (num_vars k : Z)
  (st : enc_state) (model : Z -> bool) :
  0 <= num_vars -> 0 <= k -> encode binary num_vars k = Some st ->
  sat (asg_of model) (cs st) = true ->
  computes num_vars binary (extract_esop num_vars k model).
Proof.
  intros Hn Hk He Hsat.
  destruct (encode_inv binary num_vars k st Hn Hk He) as [_ [Hst _]].
  rewrite Hst in Hsat.
  apply sat_encode_rows in Hsat; [|lia|lia|cbn [sid]; nia].
  destruct Hsat as [_ Hrows].
  intros r Hr Hdef; rewrite extract_esop_eval by exact Hn.
  apply Hrows; [apply in_zrange; exact Hr|exact Hdef].
Qed.

(** ** Soundness of the driver *)

Section Soundness.

Variable X : externals.

Hypothesis solve_sound :
  forall cs m, solve X cs = Some m -> sat (asg_of m) cs = true.
Hypothesis gauss_sound :
  forall cs a, sat a (gauss_elimination X cs) = true -> sat a cs = true.
Hypothesis gauss_vars :
  forall s cs, vars_below s cs -> vars_below s (gauss_elimination X cs).
Hypothesis xor_to_cnf_sound :
  forall s cs a, vars_below s cs ->
  sat a (xor_clauses_to_cnf X s cs) = true -> sat a cs = true.
Hypothesis symmetry_sound :
  forall cs a, sat a (cnf_symmetry_breaking X cs) = true -> sat a cs = true.
Hypothesis sort_perm : forall n e, Permutation (sort_esop X n e) e.

Lemma solve_loop_ok (P : esop -> Prop) (num_vars k : Z) (one_esop : bool)
  (base : constraints) :
  (forall m, sat (asg_of m) base = true -> P (extract_esop num_vars k m)) ->
  (forall e, P e -> P (sort_esop X num_vars e)) ->
  forall fuel cs esops,
  (forall a, sat a cs = true -> sat a base = true) ->
  Forall P esops ->
  kres_ok P (solve_loop X fuel num_vars k one_esop cs esops).
Proof.
  intros HP Hsort fuel; induction fuel as [|fuel IH]; intros cs esops Hcs Hes;
    simpl; [exact I|].
  destruct (solve X cs) as [m|] eqn:Hm; [|exact Hes].
  assert (He : P (extract_esop num_vars k m)) by (apply HP, Hcs, solve_sound, Hm).
  destruct (extract_esop num_vars k m) as [|c e'] eqn:Hx; [exact He|].
  destruct one_esop; [exact He|].
  apply IH.
  - intros a Ha; rewrite sat_fold_add_clause in Ha.
    apply andb_true_iff in Ha; apply Hcs, Ha.
  - apply Forall_app; split; [exact Hes|constructor; [apply Hsort, He|constructor]].
Qed.

Lemma preprocess_sound (st : enc_state) (a : Z -> bool) :
  vars_below (sid st) (cs st) ->
  sat a (cnf_symmetry_breaking X
           (xor_clauses_to_cnf X (sid st) (gauss_elimination X (cs st))))
  = true -> sat a (cs st) = true.
Proof.
  intros Hv H; apply gauss_sound, (xor_to_cnf_sound (sid st));
    [apply gauss_vars, Hv|apply symmetry_sound, H].
Qed.

Lemma computes_sort (num_vars : Z) (binary : list ascii) (e : esop) :
  computes num_vars binary e -> computes num_vars binary (sort_esop X num_vars e).
Proof.
  intros H r Hr Hd; rewrite esop_eval_perm with (e' := e) by apply sort_perm.
  apply H; assumption.
Qed.

Lemma run_k_ok (fuel : nat) (binary : list ascii) (num_vars : Z)
  (one_esop : bool) (k : Z) (esops : list esop) :
  0 <= num_vars -> 0 <= k -> Forall (computes num_vars binary) esops ->
  kres_ok (computes num_vars binary)
    (run_k X fuel binary num_vars one_esop k esops).
Proof.
  intros Hn Hk Hes; unfold run_k.
  destruct (encode binary num_vars k) as [st|] eqn:He; [|exact I].
  destruct (INT_MAX <? sid st); [exact I|].
  destruct (encode_inv binary num_vars k st Hn Hk He) as [_ [_ [_ Hv]]].
  apply solve_loop_ok with (base := cs st).
  - intros m Hm; apply (encode_model_computes binary num_vars k st); auto.
  - apply computes_sort.
  - intros a Ha; apply preprocess_sound; assumption.
  - exact Hes.
Qed.

Lemma k_loop_ok (P : esop -> Prop) (fuel : nat) (binary : list ascii)
  (num_vars : Z) (one_esop : bool) :
  (forall k esops, In k (0 :: []) \/ 0 <= k -> Forall P esops ->
     kres_ok P (run_k X fuel binary num_vars one_esop k esops)) ->
  forall ks esops on_exit,
  Forall (fun k => 0 <= k) ks -> Forall P esops ->
  (forall es, Forall P es -> outcome_ok P (on_exit es)) ->
  outcome_ok P (k_loop X fuel binary num_vars one_esop ks esops on_exit).
Proof.
  intros Hrun ks; induction ks as [|k ks IH]; intros esops on_exit Hks Hes Hexit;
    simpl; [apply Hexit, Hes|].
  inversion Hks as [|? ? Hk Hks']; subst.
  specialize (Hrun k esops (or_intror Hk) Hes).
  destruct (run_k X fuel binary num_vars one_esop k esops); simpl in *;
    try exact I.
  - constructor; [exact Hrun|constructor].
  - destruct (Nat.ltb 0 (length esops0)); [exact Hrun|].
    apply IH; assumption.
Qed.

(** Claim C1: every ESOP the function returns reproduces each '0'/'1'
    symbol of the table at its row (don't-care rows are unconstrained),
    for every table of length [2^num_vars] and every configuration,
    given a solver whose models satisfy the constraints and preprocessing
    stages whose models satisfy their input. *)
Theorem exact_synthesis_sound (fuel : nat) (binary : list ascii) (cfg : config)
  (num_vars : Z) (es : list esop) :
  0 <= num_vars -> Z.of_nat (length binary) = 2 ^ num_vars ->
  exact_synthesis_from_binary_string X fuel binary cfg = Ok es ->
  Forall (computes num_vars binary) es.
Proof.
  intros Hn Hlen Hres.
  unfold exact_synthesis_from_binary_string, num_vars_of in Hres.
  rewrite Hlen in Hres.
  assert (Hp : (2 ^ num_vars =? 0) = false)
    by (apply Z.eqb_neq; apply Z.pow_nonzero; lia).
  rewrite Hp, Z.log2_pow2 in Hres by exact Hn.
  destruct (64 <=? num_vars); [discriminate|].
  destruct (negb _); [discriminate|].
  destruct (32 <? num_vars); [discriminate|].
  change (outcome_ok (computes num_vars binary) (Ok es)).
  rewrite <- Hres; apply k_loop_ok.
  - intros k esops Hk Hes; apply run_k_ok; auto.
    destruct Hk as [[<-|[]]|Hk]; lia.
  - apply Forall_forall; intros k Hk; apply in_map_iff in Hk.
    destruct Hk as [i [<- _]]; lia.
  - constructor.
  - intros es' Hes'; unfold loop_exit.
    destruct (_ =? UINT_MAX); [|exact Hes'].
    apply k_loop_ok; auto.
    + intros k esops Hk Hes; apply run_k_ok; auto.
      destruct Hk as [[<-|[]]|Hk]; lia.
    + repeat constructor; lia.
    + intros; exact I.
Qed.


(** ** Extraction as the specification words it *)

Lemma fold_app_flat_map {A B} (g : A -> list B) (L : list A) (e0 : list B) :
  fold_left (fun e j => e ++ g j) L e0 = e0 ++ flat_map g L.
Proof.
  revert e0; induction L as [|j L IH]; intros e0; simpl.
  - rewrite app_nil_r; reflexivity.
  - rewrite IH, app_assoc; reflexivity.
Qed.

Lemma testbit_bitset_fold (f : Z -> bool) (L : list Z) (acc : Z) (t : Z) :
  Forall (fun l => 0 <= l) L -> 0 <= t ->
  Z.testbit (fold_left (fun acc l => if f l then Z.setbit acc l else acc) L acc) t
  = Z.testbit acc t || existsb (fun l => (l =? t) && f l) L.
Proof.
  revert acc; induction L as [|l L IH]; intros acc HL Ht; simpl.
  - rewrite orb_false_r; reflexivity.
  - inversion HL as [|? ? Hl HL']; subst.
    rewrite IH by assumption.
    destruct (f l); simpl; rewrite ?andb_true_r, ?andb_false_r, ?orb_false_l.
    + rewrite Z.setbit_eqb by exact Hl; rewrite orb_assoc.
      destruct (l =? t), (Z.testbit acc t); reflexivity.
    + reflexivity.
Qed.

Lemma testbit_bitset (f : Z -> bool) (n t : Z) :
  0 <= t -> Z.testbit (bitset f n) t = (t <? n) && f t.
Proof.
  intros Ht; unfold bitset; rewrite testbit_bitset_fold.
  - rewrite Z.testbit_0_l, orb_false_l.
    destruct (Z.ltb_spec t n) as [Hlt|Hge].
    + cbn [andb]; destruct (f t) eqn:Hf.
      * apply existsb_exists; exists t; split; [apply in_zrange; lia|].
        rewrite Z.eqb_refl, Hf; reflexivity.
      * apply not_true_iff_false; intros Hex; apply existsb_exists in Hex.
        destruct Hex as [l [_ Hl]]; apply andb_true_iff in Hl.
        destruct Hl as [Hl Hfl]; apply Z.eqb_eq in Hl; subst l; congruence.
    + apply not_true_iff_false; intros Hex; apply existsb_exists in Hex.
      destruct Hex as [l [Hl Hf]]; apply in_zrange in Hl.
      apply andb_true_iff in Hf; destruct Hf as [Hf _]; apply Z.eqb_eq in Hf; lia.
  - apply Forall_forall; intros l Hl; apply in_zrange in Hl; lia.
  - exact Ht.
Qed.

Lemma zrange_nonpos (n : Z) : n <= 0 -> zrange n = [].
Proof. intros Hn; unfold zrange; replace (Z.to_nat n) with 0%nat by lia; reflexivity. Qed.

Lemma extract_esop_decode (num_vars k : Z) (model : Z -> bool) :
  extract_esop num_vars k model = decode_esop num_vars k model.
Proof.
  unfold extract_esop, decode_esop.
  rewrite (fold_left_ext _ (fun e j => e ++ match decode_term num_vars k model j with
                                            | Some c => [c] | None => [] end)).
  { rewrite fold_app_flat_map; reflexivity. }
  intros e j _; unfold extract_term, decode_term, void_term.
  destruct (Z.ltb_spec num_vars 0) as [Hneg|Hnn].
  { unfold bitset; rewrite (zrange_nonpos num_vars) by lia; reflexivity. }
  pose proof (extract_term_spec num_vars k model j num_vars Hnn) as H.
  destruct (fold_left _ (zrange num_vars) _) as [c cancel].
  destruct H as [Hc Hb]; rewrite <- Hc.
  destruct cancel; [rewrite app_nil_r; reflexivity|].
  f_equal; f_equal; destruct c as [cb cm]; f_equal; apply Z.bits_inj';
    intros t Ht; destruct (Hb t Ht) as [Hm Hbt]; cbn [bits mask] in *;
    rewrite testbit_bitset by exact Ht; [rewrite Hbt|rewrite Hm];
    (destruct (Z.ltb_spec t num_vars) as [Hlt|Hge]; [|reflexivity]);
    assert (Hnv : model (j * num_vars + t)
                  && model (num_vars * k + j * num_vars + t) = false)
      by (apply not_true_iff_false; intros Hpq;
          assert (existsb (fun l => model (j * num_vars + l)
                   && model (num_vars * k + j * num_vars + l))
                   (zrange num_vars) = true)
            by (apply existsb_exists; exists t; split; [apply in_zrange; lia|exact Hpq]);
          congruence);
    destruct (model (j * num_vars + t)),
      (model (num_vars * k + j * num_vars + t)); try discriminate; reflexivity.
Qed.

(** ** The exhaustive solver *)

(** A constraint set depends only on the variables it mentions. *)
Lemma sat_ext_gen (P : Z -> Prop) (a b : Z -> bool) (cs : constraints) :
  Forall (Forall (fun x => P (Z.abs x))) (clauses cs) ->
  Forall (fun x => Forall P (fst x)) (xor_clauses cs) ->
  (forall v, P v -> a v = b v) -> sat a cs = sat b cs.
Proof.
  intros Hc Hx Hab; unfold sat; f_equal.
  - apply forallb_ext_in; intros c Hin; rewrite Forall_forall in Hc.
    specialize (Hc c Hin); unfold clause_sat; apply existsb_ext_in.
    intros x Hx'; rewrite Forall_forall in Hc; specialize (Hc x Hx').
    unfold lit_val; destruct (Z.ltb_spec 0 x).
    + apply Hab; rewrite Z.abs_eq in Hc by lia; exact Hc.
    + f_equal; apply Hab; rewrite Z.abs_neq in Hc by lia; exact Hc.
  - apply forallb_ext_in; intros x Hin; rewrite Forall_forall in Hx.
    specialize (Hx x Hin); unfold xor_sat; f_equal; f_equal.
    apply map_ext_in; intros v Hv; rewrite Forall_forall in Hx; auto.
Qed.

Lemma sat_ext_vars (a b : Z -> bool) (cs : constraints) :
  (forall v, In v (vars_of cs) -> a v = b v) -> sat a cs = sat b cs.
Proof.
  intros Hab; apply (sat_ext_gen (fun v => In v (vars_of cs))); [| |exact Hab];
    apply Forall_forall; intros c Hc; apply Forall_forall; intros x Hx;
    unfold vars_of; apply nodup_In, in_or_app.
  - left; apply in_flat_map; exists c; split; [exact Hc|apply in_map, Hx].
  - right; apply in_flat_map; exists c; split; assumption.
Qed.

Lemma sat_ext_below (s : Z) (a b : Z -> bool) (cs : constraints) :
  vars_below s cs -> (forall v, 0 < v < s -> a v = b v) -> sat a cs = sat b cs.
Proof.
  intros [Hc Hx] Hab; apply (sat_ext_gen (fun v => 0 < v < s)); [| |exact Hab].
  - eapply Forall_impl; [|exact Hc]; intros c Hc'.
    eapply Forall_impl; [|exact Hc']; intros x; cbv beta; lia.
  - exact Hx.
Qed.

Lemma search_sound (cs : constraints) (vs : list Z) :
  forall acc r, search cs vs acc = Some r -> sat (lookup r) cs = true.
Proof.
  induction vs as [|v vs IH]; intros acc r H; simpl in H.
  - destruct (sat (lookup acc) cs) eqn:E; [injection H as <-; exact E|discriminate].
  - destruct (search cs vs ((v, false) :: acc)) eqn:E.
    + injection H as <-; eapply IH; exact E.
    + eapply IH; exact H.
Qed.

Lemma lookup_push (a : Z -> bool) (vs : list Z) :
  forall acc x,
  lookup (fold_left (fun acc v => (v, a v) :: acc) vs acc) x
  = if existsb (Z.eqb x) vs then a x else lookup acc x.
Proof.
  induction vs as [|v vs IH]; intros acc x; simpl; [reflexivity|].
  rewrite IH; simpl.
  destruct (existsb (Z.eqb x) vs); [rewrite orb_true_r; reflexivity|].
  rewrite orb_false_r, (Z.eqb_sym v x).
  destruct (Z.eqb_spec x v) as [->|]; reflexivity.
Qed.

Lemma search_complete (cs : constraints) (a : Z -> bool) (vs : list Z) :
  forall acc, search cs vs acc = None ->
  sat (lookup (fold_left (fun acc v => (v, a v) :: acc) vs acc)) cs = false.
Proof.
  induction vs as [|v vs IH]; intros acc H; simpl in *.
  - destruct (sat (lookup acc) cs); [discriminate|reflexivity].
  - destruct (search cs vs ((v, false) :: acc)) eqn:E; [discriminate|].
    destruct (a v); apply IH; assumption.
Qed.

Lemma brute_force_solve_sound (cs : constraints) (m : Z -> bool) :
  brute_force_solve cs = Some m -> sat (asg_of m) cs = true.
Proof.
  unfold brute_force_solve; destruct (search cs (vars_of cs) []) as [r|] eqn:E;
    [|discriminate]; intros H; injection H as <-.
  apply search_sound in E; rewrite <- E; apply sat_ext_vars.
  intros v _; unfold asg_of; f_equal; ring.
Qed.

Lemma brute_force_solve_complete (cs : constraints) (a : Z -> bool) :
  sat a cs = true -> exists m, brute_force_solve cs = Some m.
Proof.
  intros Ha; unfold brute_force_solve.
  destruct (search cs (vars_of cs) []) as [r|] eqn:E; [eexists; reflexivity|].
  apply (search_complete cs a) in E.
  rewrite (sat_ext_vars _ a) in E; [congruence|].
  intros v Hv; rewrite lookup_push.
  replace (existsb (Z.eqb v) (vars_of cs)) with true; [reflexivity|].
  symmetry; apply existsb_exists; exists v; split; [exact Hv|apply Z.eqb_refl].
Qed.

(** ** Models of the encoding built from an ESOP *)

Lemma compat_ext (a b : Z -> bool) (num_vars k j r : Z) :
  0 <= num_vars -> 0 <= j < k ->
  (forall v, 0 < v < 1 + 2 * num_vars * k -> a v = b v) ->
  compat a num_vars k j r = compat b num_vars k j r.
Proof.
  intros Hn Hj Hab; unfold compat; apply forallb_ext_in; intros l Hl.
  apply in_zrange in Hl.
  assert (num_vars * j <= num_vars * (k - 1))
    by (apply Z.mul_le_mono_nonneg_l; lia).
  destruct (get_bit r l); f_equal; apply Hab; unfold p_var, q_var; nia.
Qed.

Lemma sat_encode_rows_back (a0 : Z -> bool) (binary : list ascii)
  (num_vars k : Z) :
  0 <= num_vars -> 0 <= k ->
  forall rows st a, 1 + 2 * num_vars * k <= sid st ->
  vars_below (sid st) (cs st) -> sat a (cs st) = true ->
  (forall v, 0 < v < 1 + 2 * num_vars * k -> a v = a0 v) ->
  (forall r, In r rows -> is_defined (char_at binary r) = true ->
     xor_list (map (fun j => compat a0 num_vars k j r) (zrange k))
     = (char_at binary r =? "1")%char) ->
  exists a', sat a' (cs (fold_left (fun st r => encode_row binary num_vars k r st)
                           rows st)) = true.
Proof.
  intros Hn Hk; assert (Hnk : 0 <= 2 * num_vars * k) by nia.
  intros rows; induction rows as [|r rows IH]; intros st a Hs Hv Hsat Ha Hrows;
    simpl; [exists a; exact Hsat|].
  destruct (is_defined (char_at binary r)) eqn:Hd.
  - set (a1 := fun v => if (sid st <=? v) && (v <? sid st + k)
                        then compat a0 num_vars k (v - sid st) r else a v).
    assert (Hlow : forall v, v < sid st -> a1 v = a v).
    { intros v Hv'; unfold a1.
      replace (sid st <=? v) with false by (symmetry; apply Z.leb_gt; lia).
      reflexivity. }
    assert (Hc : forall j, In j (zrange k) ->
              compat a1 num_vars k j r = compat a0 num_vars k j r /\
              a1 (sid st + j) = compat a0 num_vars k j r).
    { intros j Hj; apply in_zrange in Hj; split.
      - apply compat_ext; [lia|lia|]; intros v Hv'.
        rewrite Hlow by lia; apply Ha; lia.
      - unfold a1.
        replace ((sid st <=? sid st + j) && (sid st + j <? sid st + k)) with true
          by (symmetry; apply andb_true_iff; split;
              [apply Z.leb_le|apply Z.ltb_lt]; lia).
        f_equal; ring. }
    apply (IH _ a1).
    + rewrite sid_encode_row, Hd; lia.
    + apply vars_below_encode_row; assumption.
    + rewrite sat_encode_row, Hd by lia.
      rewrite (sat_ext_below (sid st) a1 a) by
        (assumption || (intros v Hv'; apply Hlow; lia)).
      rewrite Hsat; cbn [andb]; apply andb_true_iff; split.
      * apply forallb_forall; intros j Hj; destruct (Hc j Hj) as [-> ->].
        apply eqb_reflx.
      * rewrite map_map.
        rewrite (map_ext_in _ (fun j => compat a0 num_vars k j r))
          by (intros j Hj; apply Hc; exact Hj).
        rewrite (Hrows r (or_introl eq_refl) Hd); apply eqb_reflx.
    + intros v Hv'; rewrite Hlow by lia; apply Ha; lia.
    + intros r' Hr' Hd'; apply Hrows; [right; exact Hr'|exact Hd'].
  - replace (encode_row binary num_vars k r st) with st
      by (unfold encode_row; rewrite Hd; reflexivity).
    apply (IH st a); try assumption.
    intros r' Hr' Hd'; apply Hrows; [right; exact Hr'|exact Hd'].
Qed.

Lemma encode_sat_of (a0 : Z -> bool) (binary : list ascii) (num_vars k : Z)
  (st : enc_state) :
  0 <= num_vars -> 0 <= k -> encode binary num_vars k = Some st ->
  (forall r, 0 <= r < 2 ^ num_vars -> is_defined (char_at binary r) = true ->
     xor_list (map (fun j => compat a0 num_vars k j r) (zrange k))
     = (char_at binary r =? "1")%char) ->
  exists a, sat a (cs st) = true.
Proof.
  intros Hn Hk He Hrows.
  destruct (encode_inv binary num_vars k st Hn Hk He) as [_ [Hst _]].
  rewrite Hst; apply (sat_encode_rows_back a0 binary num_vars k Hn Hk _ _ a0);
    cbn [sid cs].
  - lia.
  - split; constructor.
  - reflexivity.
  - intros; reflexivity.
  - intros r Hr; apply in_zrange in Hr; apply Hrows; exact Hr.
Qed.

Lemma pattern_asg_p (num_vars k : Z) (P Q : Z -> Z -> bool) (j l : Z) :
  1 <= num_vars -> 0 <= j < k -> 0 <= l < num_vars ->
  pattern_asg num_vars k P Q (p_var num_vars j l) = P j l.
Proof.
  intros Hn Hj Hl; unfold pattern_asg, p_var.
  replace (1 + num_vars * j + l - 1) with (l + j * num_vars) by ring.
  replace (l + j * num_vars <? num_vars * k) with true
    by (symmetry; apply Z.ltb_lt; nia).
  rewrite Z.div_add, Z.mod_add, Z.div_small, Z.mod_small by lia.
  reflexivity.
Qed.

Lemma pattern_asg_q (num_vars k : Z) (P Q : Z -> Z -> bool) (j l : Z) :
  1 <= num_vars -> 0 <= j < k -> 0 <= l < num_vars ->
  pattern_asg num_vars k P Q (q_var num_vars k j l) = Q j l.
Proof.
  intros Hn Hj Hl; unfold pattern_asg, q_var.
  replace (1 + num_vars * k + num_vars * j + l - 1)
    with (num_vars * k + (l + j * num_vars)) by ring.
  replace (num_vars * k + (l + j * num_vars) <? num_vars * k) with false
    by (symmetry; apply Z.ltb_ge; nia).
  replace (num_vars * k + (l + j * num_vars) - num_vars * k)
    with (l + j * num_vars) by ring.
  rewrite Z.div_add, Z.mod_add, Z.div_small, Z.mod_small by lia.
  reflexivity.
Qed.

Lemma compat_pattern (num_vars k : Z) (P Q : Z -> Z -> bool) (j r : Z) :
  1 <= num_vars -> 0 <= j < k ->
  compat (pattern_asg num_vars k P Q) num_vars k j r
  = forallb (fun l => if get_bit r l then negb (Q j l) else negb (P j l))
      (zrange num_vars).
Proof.
  intros Hn Hj; unfold compat; apply forallb_ext_in; intros l Hl.
  apply in_zrange in Hl.
  destruct (get_bit r l); [rewrite pattern_asg_q|rewrite pattern_asg_p]; auto.
Qed.

Lemma cube_pattern_covers (c : cube) (num_vars r : Z) :
  0 <= num_vars -> cube_over num_vars c = true ->
  forallb (fun l => if get_bit r l
                    then negb (Z.testbit (mask c) l && negb (Z.testbit (bits c) l))
                    else negb (Z.testbit (mask c) l && Z.testbit (bits c) l))
    (zrange num_vars)
  = cube_covers c r.
Proof.
  intros Hn Hc; unfold cube_over in Hc.
  apply andb_true_iff in Hc; destruct Hc as [Hc _].
  apply andb_true_iff in Hc; destruct Hc as [H0 H1].
  apply Z.leb_le in H0; apply Z.ltb_lt in H1.
  apply eq_true_iff_eq; rewrite cube_covers_iff, forallb_forall; split.
  - intros H t Ht; destruct (Z.ltb_spec t num_vars) as [Hlt|Hge].
    + assert (Hin : In t (zrange num_vars)) by (apply in_zrange; lia).
      specialize (H t Hin); unfold get_bit in H.
      destruct (Z.testbit r t), (Z.testbit (bits c) t), (Z.testbit (mask c) t);
        simpl in *; try reflexivity; try discriminate.
    + rewrite <- (Z.mod_small (mask c) (2 ^ num_vars)) by lia.
      rewrite Z.mod_pow2_bits_high by lia; apply andb_false_r.
  - intros H l Hl; apply in_zrange in Hl; specialize (H l (proj1 Hl)).
    unfold get_bit.
    destruct (Z.testbit r l), (Z.testbit (bits c) l), (Z.testbit (mask c) l);
      simpl in *; try reflexivity; try discriminate.
Qed.

Lemma xor_list_false (l : list bool) :
  Forall (fun b => b = false) l -> xor_list l = false.
Proof.
  induction 1 as [|b l Hb _ IH]; [reflexivity|].
  rewrite xor_list_cons, Hb, IH; reflexivity.
Qed.

Lemma map_nth_seq0 {A} (L : list A) (d : A) :
  map (fun i => nth i L d) (seq 0 (length L)) = L.
Proof.
  induction L as [|x L IH]; simpl; [reflexivity|].
  f_equal; rewrite <- seq_shift, map_map; exact IH.
Qed.

Lemma xor_nth_zrange (L : list bool) (k : Z) :
  (length L <= Z.to_nat k)%nat ->
  xor_list (map (fun j => nth (Z.to_nat j) L false) (zrange k)) = xor_list L.
Proof.
  intros HL; unfold zrange; rewrite map_map.
  rewrite (map_ext (fun x => nth (Z.to_nat (Z.of_nat x)) L false)
                   (fun x => nth x L false))
    by (intros; rewrite Nat2Z.id; reflexivity).
  replace (Z.to_nat k) with (length L + (Z.to_nat k - length L))%nat by lia.
  rewrite seq_app, map_app, xor_list_app, map_nth_seq0.
  rewrite (xor_list_false (map _ (seq _ _))); [apply xorb_false_r|].
  apply Forall_forall; intros b Hb; apply in_map_iff in Hb.
  destruct Hb as [i [<- Hi]]; apply in_seq in Hi; apply nth_overflow; lia.
Qed.

(** The pattern of an ESOP with at most [k] cubes over [num_vars >= 1]
    inputs makes the terms' compatibilities add up to the ESOP's value. *)
Lemma esop_pattern_xor (e : esop) (num_vars k r : Z) :
  1 <= num_vars -> 0 <= k -> (length e <= Z.to_nat k)%nat ->
  Forall (fun c => cube_over num_vars c = true) e ->
  xor_list (map (fun j => compat (pattern_asg num_vars k (esop_P e) (esop_Q e))
                            num_vars k j r) (zrange k))
  = esop_eval e r.
Proof.
  intros Hn Hk Hlen Hc.
  rewrite (map_ext_in _ (fun j => nth (Z.to_nat j)
                                    (map (fun c => cube_covers c r) e) false)).
  - rewrite xor_nth_zrange by (rewrite length_map; lia); reflexivity.
  - intros j Hj; apply in_zrange in Hj; rewrite compat_pattern by lia.
    unfold esop_P, esop_Q.
    destruct (Nat.ltb_spec (Z.to_nat j) (length e)) as [Hlt|Hge].
    + rewrite nth_indep with (d' := cube_covers cube_empty r)
        by (rewrite length_map; lia).
      rewrite (map_nth (fun c => cube_covers c r) e cube_empty).
      apply cube_pattern_covers; [lia|].
      rewrite Forall_forall in Hc; apply Hc, nth_In; lia.
    + rewrite nth_overflow by (rewrite length_map; lia).
      apply not_true_iff_false; rewrite forallb_forall; intros H.
      assert (H0 : In 0 (zrange num_vars)) by (apply in_zrange; lia).
      specialize (H 0 H0).
      replace (Z.to_nat j <? length e)%nat with false in H
        by (symmetry; apply Nat.ltb_ge; exact Hge).
      destruct (get_bit r 0); simpl in H; discriminate H.
Qed.

(** For [num_vars >= 1], an ESOP with at most [k] cubes gives a model of
    the encoding for [k]: its cubes fill the first slots, the other slots
    are void. *)
Lemma exists_esop_sat (binary : list ascii) (num_vars k : Z) (st : enc_state) :
  1 <= num_vars -> 0 <= k -> encode binary num_vars k = Some st ->
  exists_esop num_vars binary k -> exists a, sat a (cs st) = true.
Proof.
  intros Hn Hk He [e [Hlen [Hc Hcomp]]].
  apply (encode_sat_of (pattern_asg num_vars k (esop_P e) (esop_Q e))
           binary num_vars k st); try lia; [exact He|].
  intros r Hr Hd; rewrite esop_pattern_xor by (lia || exact Hc).
  apply Hcomp; assumption.
Qed.

(** ** Shape of the extracted ESOP *)

Lemma bitset_range (f : Z -> bool) (n : Z) :
  0 <= n -> 0 <= bitset f n < 2 ^ n.
Proof.
  intros Hn.
  assert (H : bitset f n = bitset f n mod 2 ^ n).
  { apply Z.bits_inj'; intros t Ht; destruct (Z.ltb_spec t n).
    - rewrite Z.mod_pow2_bits_low by lia; reflexivity.
    - rewrite Z.mod_pow2_bits_high by lia.
      rewrite testbit_bitset by exact Ht.
      replace (t <? n) with false by lia; reflexivity. }
  rewrite H; apply Z.mod_pos_bound, Z.pow_pos_nonneg; lia.
Qed.

Lemma decode_cubes_over (num_vars k : Z) (model : Z -> bool) :
  0 <= num_vars ->
  Forall (fun c => cube_over num_vars c = true) (decode_esop num_vars k model).
Proof.
  intros Hn; apply Forall_forall; intros c Hc.
  unfold decode_esop in Hc; apply in_flat_map in Hc; destruct Hc as [j [_ Hc]].
  unfold decode_term in Hc; cbv zeta in Hc.
  destruct (void_term num_vars k model j); [destruct Hc|].
  destruct Hc as [<-|[]]; unfold cube_over; cbn [bits mask].
  destruct (bitset_range (fun l => model (j * num_vars + l)
             || model (num_vars * k + j * num_vars + l)) num_vars Hn) as [H0 H1].
  replace (Z.land _ _) with 0.
  - rewrite Z.eqb_refl, andb_true_r; apply andb_true_iff; split;
      [apply Z.leb_le|apply Z.ltb_lt]; lia.
  - symmetry; apply Z.bits_inj_0; intros t.
    destruct (Z.ltb_spec t 0); [apply Z.testbit_neg_r; lia|].
    rewrite Z.land_spec, Z.lnot_spec, !testbit_bitset by lia.
    destruct (t <? num_vars), (model (j * num_vars + t)),
      (model (num_vars * k + j * num_vars + t)); reflexivity.
Qed.

Lemma flat_map_length_le1 {A B} (f : A -> list B) (L : list A) :
  (forall x, (length (f x) <= 1)%nat) -> (length (flat_map f L) <= length L)%nat.
Proof.
  intros Hf; induction L as [|x L IH]; simpl; [lia|].
  rewrite length_app; specialize (Hf x); lia.
Qed.

Lemma decode_length (num_vars k : Z) (model : Z -> bool) :
  (length (decode_esop num_vars k model) <= Z.to_nat k)%nat.
Proof.
  unfold decode_esop; rewrite <- (zrange_length k).
  apply flat_map_length_le1; intros j.
  destruct (decode_term num_vars k model j); simpl; lia.
Qed.

(** When no ESOP with fewer cubes computes the table, a model of the
    encoding for [k] decodes to no cube or to exactly [k] cubes. *)
Lemma pass_models (binary : list ascii) (num_vars k : Z) (st : enc_state) :
  0 <= num_vars -> 0 <= k -> encode binary num_vars k = Some st ->
  (forall k', 1 <= k' < k -> ~ exists_esop num_vars binary k') ->
  forall m, sat (asg_of m) (cs st) = true ->
  pass_ok num_vars binary k (extract_esop num_vars k m).
Proof.
  intros Hn Hk He Hmin m Hm.
  assert (Hcomp := encode_model_computes binary num_vars k st m Hn Hk He Hm).
  assert (Hov : Forall (fun c => cube_over num_vars c = true)
                  (extract_esop num_vars k m))
    by (rewrite extract_esop_decode; apply decode_cubes_over; exact Hn).
  assert (Hlen := decode_length num_vars k m); rewrite <- extract_esop_decode in Hlen.
  split; [exact Hcomp|split; [exact Hov|]].
  destruct (extract_esop num_vars k m) as [|c e] eqn:E; [left; reflexivity|right].
  try rewrite E in Hlen; try rewrite E in Hov; try rewrite E in Hcomp.
  destruct (Z.eq_dec (Z.of_nat (length (c :: e))) k) as [Heq|Hne]; [exact Heq|].
  exfalso; apply (Hmin (Z.of_nat (length (c :: e)))).
  - simpl length in *; lia.
  - exists (c :: e); split; [lia|split; assumption].
Qed.

Lemma Forall_perm {A} (P : A -> Prop) (l l' : list A) :
  Permutation l l' -> Forall P l -> Forall P l'.
Proof.
  intros Hp H; rewrite Forall_forall in *; intros x Hx.
  apply H; apply (Permutation_in x (Permutation_sym Hp)); exact Hx.
Qed.

Lemma pass_ok_perm (num_vars : Z) (binary : list ascii) (k : Z) (e e' : esop) :
  Permutation e' e -> pass_ok num_vars binary k e -> pass_ok num_vars binary k e'.
Proof.
  intros Hp [Hc [Ho Hl]]; split; [|split].
  - intros r Hr Hd; rewrite (esop_eval_perm e' e) by exact Hp; apply Hc; assumption.
  - apply (Forall_perm _ e); [apply Permutation_sym, Hp|exact Ho].
  - destruct Hl as [->|Hl]; [left; apply Permutation_nil, Permutation_sym, Hp|].
    right; rewrite (Permutation_length Hp); exact Hl.
Qed.

(** ** Minimality of the number of cubes *)

Lemma solve_loop_done (fuel : nat) (num_vars k : Z) (one_esop : bool) :
  forall cs esops es,
  solve_loop X fuel num_vars k one_esop cs esops = KDone es ->
  exists s, es = esops ++ s /\ Forall (fun e => e <> []) s.
Proof.
  induction fuel as [|fuel IH]; intros cs esops es H; simpl in H; [discriminate|].
  destruct (solve X cs) as [m|].
  - destruct (extract_esop num_vars k m) as [|c e] eqn:E; [discriminate|].
    destruct one_esop; [discriminate|].
    apply IH in H; destruct H as [s [-> Hs]].
    exists (sort_esop X num_vars (c :: e) :: s); split.
    + rewrite <- app_assoc; reflexivity.
    + constructor; [|exact Hs].
      intros Hnil; apply (Permutation_nil_cons (l := e) (x := c)).
      rewrite <- Hnil; apply sort_perm.
  - injection H as <-; exists []; split; [rewrite app_nil_r; reflexivity|constructor].
Qed.

Lemma run_k_done (fuel : nat) (binary : list ascii) (num_vars : Z)
  (one_esop : bool) (k : Z) (es : list esop) :
  run_k X fuel binary num_vars one_esop k [] = KDone es ->
  Forall (fun e => e <> []) es.
Proof.
  unfold run_k; destruct (encode binary num_vars k); [|discriminate].
  destruct (INT_MAX <? sid e); [discriminate|].
  intros H; apply solve_loop_done in H; destruct H as [s [-> Hs]]; exact Hs.
Qed.

(** Every ESOP the pass for [k] ends with satisfies [pass_ok] when no
    smaller number of cubes suffices. *)
Lemma run_k_pass (fuel : nat) (binary : list ascii) (num_vars : Z)
  (one_esop : bool) (k : Z) :
  0 <= num_vars -> 0 <= k ->
  (forall k', 1 <= k' < k -> ~ exists_esop num_vars binary k') ->
  kres_ok (pass_ok num_vars binary k)
    (run_k X fuel binary num_vars one_esop k []).
Proof.
  intros Hn Hk Hmin; unfold run_k.
  destruct (encode binary num_vars k) as [st|] eqn:He; [|exact I].
  destruct (INT_MAX <? sid st); [exact I|].
  destruct (encode_inv binary num_vars k st Hn Hk He) as [_ [_ [_ Hv]]].
  apply solve_loop_ok with (base := cs st).
  - intros m Hm; apply (pass_models binary num_vars k st); assumption.
  - intros e He'; apply (pass_ok_perm _ _ _ e); [apply sort_perm|exact He'].
  - intros a Ha; apply preprocess_sound; assumption.
  - constructor.
Qed.

Section Completeness.

Hypothesis solve_complete :
  forall cs a, sat a cs = true -> exists m, solve X cs = Some m.
Hypothesis gauss_complete :
  forall cs a, sat a cs = true -> exists b, sat b (gauss_elimination X cs) = true.
Hypothesis xor_to_cnf_complete :
  forall s cs a, vars_below s cs -> sat a cs = true ->
  exists b, sat b (xor_clauses_to_cnf X s cs) = true.
Hypothesis symmetry_complete :
  forall cs a, sat a cs = true ->
  exists b, sat b (cnf_symmetry_breaking X cs) = true.

(** A pass that finds nothing proves that no ESOP with at most [k] cubes
    computes the table. *)
Lemma run_k_unsat (fuel : nat) (binary : list ascii) (num_vars : Z)
  (one_esop : bool) (k : Z) :
  1 <= num_vars -> 0 <= k ->
  run_k X fuel binary num_vars one_esop k [] = KDone [] ->
  ~ exists_esop num_vars binary k.
Proof.
  intros Hn Hk H Hex; unfold run_k in H.
  destruct (encode binary num_vars k) as [st|] eqn:He; [|discriminate].
  destruct (INT_MAX <? sid st); [discriminate|].
  destruct (encode_inv binary num_vars k st ltac:(lia) Hk He) as [_ [_ [_ Hv]]].
  destruct (exists_esop_sat binary num_vars k st Hn Hk He Hex) as [a Ha].
  destruct (gauss_complete _ _ Ha) as [a1 Ha1].
  destruct (xor_to_cnf_complete (sid st) _ _ (gauss_vars _ _ Hv) Ha1) as [a2 Ha2].
  destruct (symmetry_complete _ _ Ha2) as [a3 Ha3].
  destruct (solve_complete _ _ Ha3) as [m Hm].
  destruct fuel as [|fuel]; simpl in H; [discriminate|].
  rewrite Hm in H.
  destruct (extract_esop num_vars k m) as [|c e]; [discriminate|].
  destruct one_esop; [discriminate|].
  apply solve_loop_done in H; destruct H as [s [Hs _]]; discriminate Hs.
Qed.

Lemma k_loop_min (fuel : nat) (binary : list ascii) (num_vars : Z)
  (one_esop : bool) (on_exit : list esop -> outcome) (es : list esop) :
  1 <= num_vars ->
  forall M m, (1 <= m)%nat ->
  (forall k', 1 <= k' < Z.of_nat m -> ~ exists_esop num_vars binary k') ->
  k_loop X fuel binary num_vars one_esop (map Z.of_nat (seq m M)) [] on_exit
  = Ok es ->
  (exists k, Z.of_nat m <= k < Z.of_nat (m + M) /\
     (forall k', 1 <= k' < k -> ~ exists_esop num_vars binary k') /\
     ((exists e, run_k X fuel binary num_vars one_esop k [] = KReturn e /\
                 es = [e]) \/
      (run_k X fuel binary num_vars one_esop k [] = KDone es /\ es <> [])))
  \/ ((forall k', 1 <= k' < Z.of_nat (m + M) -> ~ exists_esop num_vars binary k')
      /\ on_exit [] = Ok es).
Proof.
  intros Hn M; induction M as [|M IH]; intros m Hm Hmin H; simpl in H.
  - right; rewrite Nat.add_0_r; split; assumption.
  - destruct (run_k X fuel binary num_vars one_esop (Z.of_nat m) []) eqn:E;
      try discriminate.
    + left; exists (Z.of_nat m); split; [lia|split; [exact Hmin|]].
      left; exists e; split; [exact E|injection H as <-; reflexivity].
    + destruct (Nat.ltb 0 (length esops)) eqn:Hl.
      * left; exists (Z.of_nat m); split; [lia|split; [exact Hmin|]].
        right; injection H as <-; split; [exact E|].
        intros ->; discriminate Hl.
      * destruct esops; [|discriminate Hl].
        assert (Hm' : ~ exists_esop num_vars binary (Z.of_nat m))
          by (apply (run_k_unsat fuel binary num_vars one_esop); [lia|lia|exact E]).
        destruct (IH (S m) ltac:(lia)) as [[k [Hk Hrest]]|[Hall Hex]].
        -- intros k' Hk'; destruct (Z.eq_dec k' (Z.of_nat m)) as [->|Hne];
             [exact Hm'|apply Hmin; lia].
        -- exact H.
        -- left; exists k; split; [lia|exact Hrest].
        -- right; split; [|exact Hex].
           intros k' Hk'; apply Hall; lia.
Qed.

Lemma max_number_of_cubes_range (cfg : config) :
  0 <= max_number_of_cubes cfg <= UINT_MAX.
Proof.
  unfold max_number_of_cubes, UINT_MAX.
  destruct (cfg_maximum_cubes cfg) as [m|]; [|lia].
  pose proof (Z.mod_pos_bound m (2 ^ 32) ltac:(reflexivity)); lia.
Qed.

(** Claim C2 (amended): for tables with at least one input, with a solver
    that finds a model exactly when there is one and preprocessing that
    keeps satisfiability, a non-empty result stems from the smallest [k]
    in [1, maximum_cubes] for which some ESOP with at most [k] cubes
    computes the table, and either it is the single empty ESOP (the
    table's defined symbols are all '0') or all its ESOPs have exactly [k]
    cubes. *)
Theorem exact_synthesis_minimal (fuel : nat) (binary : list ascii)
  (cfg : config) (num_vars : Z) (es : list esop) :
  1 <= num_vars -> Z.of_nat (length binary) = 2 ^ num_vars ->
  exact_synthesis_from_binary_string X fuel binary cfg = Ok es -> es <> [] ->
  exists k, 1 <= k <= max_number_of_cubes cfg /\
    exists_esop num_vars binary k /\
    (forall k', 1 <= k' < k -> ~ exists_esop num_vars binary k') /\
    ((es = [[]] /\ exists_esop num_vars binary 0) \/
     Forall (fun e => Z.of_nat (length e) = k) es).
Proof.
  intros Hn Hlen Hres Hne.
  unfold exact_synthesis_from_binary_string, num_vars_of in Hres.
  rewrite Hlen in Hres.
  assert (Hp : (2 ^ num_vars =? 0) = false)
    by (apply Z.eqb_neq; apply Z.pow_nonzero; lia).
  rewrite Hp, Z.log2_pow2 in Hres by lia.
  destruct (64 <=? num_vars); [discriminate|].
  destruct (negb _); [discriminate|].
  destruct (32 <? num_vars); [discriminate|].
  pose proof (max_number_of_cubes_range cfg) as Hmax.
  apply (k_loop_min fuel binary num_vars (one_esop_of cfg) _ es Hn
           (Z.to_nat (max_number_of_cubes cfg)) 1) in Hres;
    [|lia|intros; lia].
  destruct Hres as [[k [Hk [Hmin Hcase]]]|[Hmin Hexit]].
  - assert (Hp0 := run_k_pass fuel binary num_vars (one_esop_of cfg) k
                     ltac:(lia) ltac:(lia) Hmin).
    exists k; split; [lia|].
    destruct Hcase as [[e [Hr ->]]|[Hr Hes]]; rewrite Hr in Hp0; simpl in Hp0.
    + destruct Hp0 as [Hc [Ho [He0|Hek]]].
      * subst e; split; [exists []; simpl; split; [lia|split; [constructor|exact Hc]]|].
        split; [exact Hmin|left; split; [reflexivity|]].
        exists []; simpl; split; [lia|split; [constructor|exact Hc]].
      * split; [exists e; split; [lia|split; assumption]|].
        split; [exact Hmin|right; constructor; [exact Hek|constructor]].
    + assert (Hnn := run_k_done _ _ _ _ _ _ Hr).
      destruct es as [|e es']; [congruence|].
      inversion Hp0 as [|? ? [Hc [Ho Hl]] _]; subst.
      split; [exists e; split; [destruct Hl as [->|Hl]; simpl; lia|split; assumption]|].
      split; [exact Hmin|right].
      apply Forall_forall; intros e' He'.
      rewrite Forall_forall in Hp0, Hnn.
      destruct (Hp0 e' He') as [_ [_ [Hnil|Hl']]]; [|exact Hl'].
      exfalso; exact (Hnn e' He' Hnil).
  - exfalso; unfold loop_exit in Hexit.
    destruct (Z.eqb_spec (max_number_of_cubes cfg) UINT_MAX) as [Hu|Hu];
      [|injection Hexit as <-; congruence].
    simpl in Hexit.
    assert (Hp0 := run_k_pass fuel binary num_vars (one_esop_of cfg) 0
                     ltac:(lia) ltac:(lia) ltac:(intros; lia)).
    assert (Hnn := run_k_done fuel binary num_vars (one_esop_of cfg) 0).
    destruct (run_k X fuel binary num_vars (one_esop_of cfg) 0 []) as [e|es0| |];
      try discriminate; simpl in Hp0.
    + destruct Hp0 as [Hc [Ho Hl]].
      apply (Hmin 1); [unfold UINT_MAX in Hu; lia|].
      exists e; split; [destruct Hl as [->|Hl]; simpl; lia|split; assumption].
    + specialize (Hnn es0 eq_refl).
      destruct es0 as [|e es0]; [discriminate|].
      inversion Hp0 as [|? ? [_ [_ [Hnil|Hl]]] _]; subst.
      * inversion Hnn; congruence.
      * inversion Hnn as [|? ? Hne' _]; apply Hne', length_zero_iff_nil; lia.
Qed.


(** ** The permutations visited by [std::next_permutation] *)

Lemma picks_in (l : list Z) (x : Z) :
  In x l -> exists rest, In (x, rest) (picks l) /\ Permutation l (x :: rest).
Proof.
  induction l as [|y t IH]; intros Hx; [destruct Hx|].
  destruct Hx as [<-|Hx].
  - exists t; split; [left; reflexivity|reflexivity].
  - destruct (IH Hx) as [rest [Hin Hp]].
    exists (y :: rest); split.
    + right; apply in_map_iff; exists (x, rest); split; [reflexivity|exact Hin].
    + rewrite Hp; apply perm_swap.
Qed.

Lemma picks_length (l : list Z) :
  length (picks l) = length l /\
  forall p, In p (picks l) -> S (length (snd p)) = length l.
Proof.
  induction l as [|y t [IHl IHp]]; simpl; [split; [reflexivity|intros _ []]|].
  split; [rewrite length_map, IHl; reflexivity|].
  intros p [<-|Hp]; [reflexivity|].
  apply in_map_iff in Hp; destruct Hp as [p' [<- Hp']]; simpl.
  rewrite (IHp p' Hp'); reflexivity.
Qed.

Lemma perms_aux_complete (fuel : nat) :
  forall l s, (length l <= fuel)%nat -> Permutation s l -> In s (perms_aux fuel l).
Proof.
  induction fuel as [|fuel IH]; intros l s Hl Hp.
  - destruct l; [|simpl in Hl; lia].
    apply Permutation_sym, Permutation_nil in Hp; subst; left; reflexivity.
  - destruct l as [|y t].
    + apply Permutation_sym, Permutation_nil in Hp; subst; left; reflexivity.
    + destruct s as [|x s'].
      { exfalso; exact (Permutation_nil_cons Hp). }
      assert (Hx : In x (y :: t))
        by (apply (Permutation_in x Hp); left; reflexivity).
      destruct (picks_in (y :: t) x Hx) as [rest [Hin Hpr]].
      unfold perms_aux; fold perms_aux.
      apply in_flat_map; exists (x, rest); split; [exact Hin|].
      apply in_map; apply IH.
      * apply Permutation_length in Hpr; simpl in *; lia.
      * apply (Permutation_cons_inv (a := x)); rewrite Hp; exact Hpr.
Qed.

Lemma permutations_complete (l s : list Z) :
  Permutation s l -> In s (permutations l).
Proof. intros Hp; apply perms_aux_complete; [lia|exact Hp]. Qed.

Lemma flat_map_length_const {A B} (f : A -> list B) (L : list A) (c : nat) :
  (forall x, In x L -> length (f x) = c) ->
  length (flat_map f L) = (length L * c)%nat.
Proof.
  induction L as [|x L IH]; intros H; simpl; [reflexivity|].
  rewrite length_app, H, IH; [reflexivity| |left; reflexivity].
  intros y Hy; apply H; right; exact Hy.
Qed.

Lemma perms_aux_length (n : nat) :
  forall l, length l = n -> length (perms_aux n l) = fact n.
Proof.
  induction n as [|n IH]; intros l Hl.
  - destruct l; [reflexivity|discriminate].
  - destruct l as [|y t]; [discriminate|].
    unfold perms_aux; fold perms_aux.
    destruct (picks_length (y :: t)) as [Hpl Hps].
    rewrite (flat_map_length_const _ _ (fact n)).
    + rewrite Hpl, Hl; reflexivity.
    + intros p Hp; rewrite length_map; apply IH.
      specialize (Hps p Hp); rewrite Hl in Hps; lia.
Qed.

Lemma blocking_clauses_length (num_vars k : Z) (model : Z -> bool) :
  length (blocking_clauses num_vars k model) = fact (Z.to_nat k).
Proof.
  unfold blocking_clauses, permutations; rewrite length_map.
  rewrite perms_aux_length by reflexivity; rewrite zrange_length; reflexivity.
Qed.

(** ** Blocking clauses *)

(** The clause for the permutation [vs] is false in every model that has
    the pattern of slot [j] of [model] at slot [vs[j]]. *)
Lemma blocking_clause_false (num_vars k : Z) (model model' : Z -> bool)
  (vs : list Z) :
  0 <= num_vars -> 0 <= k -> Forall (fun v => 0 <= v) vs ->
  (forall j l, In j (zrange (Z.of_nat (length vs))) -> In l (zrange num_vars) ->
     model' (nth (Z.to_nat j) vs 0 * num_vars + l) = model (j * num_vars + l) /\
     model' (num_vars * k + nth (Z.to_nat j) vs 0 * num_vars + l)
     = model (num_vars * k + j * num_vars + l)) ->
  clause_sat (asg_of model') (blocking_clause num_vars k model vs) = false.
Proof.
  intros Hn Hk Hvs Hag; apply not_true_iff_false; intros H.
  unfold clause_sat, blocking_clause in H; apply existsb_exists in H.
  destruct H as [x [Hx Hv]].
  apply in_flat_map in Hx; destruct Hx as [j [Hj Hx]].
  apply in_flat_map in Hx; destruct Hx as [l [Hl Hx]].
  destruct (Hag j l Hj Hl) as [Hp Hq].
  set (vj := nth (Z.to_nat j) vs 0) in *.
  assert (Hvj : 0 <= vj).
  { unfold vj; apply in_zrange in Hj.
    rewrite Forall_forall in Hvs; apply Hvs, nth_In; lia. }
  apply in_zrange in Hl.
  assert (0 <= vj * num_vars) by nia.
  assert (0 <= num_vars * k) by nia.
  destruct Hx as [<-|[<-|[]]].
  - destruct (model (j * num_vars + l)) eqn:E.
    + rewrite lit_val_neg in Hv by lia; unfold asg_of in Hv.
      replace (1 + vj * num_vars + l - 1) with (vj * num_vars + l) in Hv by ring.
      rewrite Hp in Hv; discriminate.
    + rewrite lit_val_pos in Hv by lia; unfold asg_of in Hv.
      replace (1 + vj * num_vars + l - 1) with (vj * num_vars + l) in Hv by ring.
      rewrite Hp in Hv; discriminate.
  - destruct (model (num_vars * k + j * num_vars + l)) eqn:E.
    + rewrite lit_val_neg in Hv by lia; unfold asg_of in Hv.
      replace (1 + num_vars * k + vj * num_vars + l - 1)
        with (num_vars * k + vj * num_vars + l) in Hv by ring.
      rewrite Hq in Hv; discriminate.
    + rewrite lit_val_pos in Hv by lia; unfold asg_of in Hv.
      replace (1 + num_vars * k + vj * num_vars + l - 1)
        with (num_vars * k + vj * num_vars + l) in Hv by ring.
      rewrite Hq in Hv; discriminate.
Qed.

Lemma flat_map_full {A B} (f : A -> list B) (L : list A) :
  (forall x, (length (f x) <= 1)%nat) ->
  length (flat_map f L) = length L -> forall x, In x L -> length (f x) = 1%nat.
Proof.
  intros Hf; induction L as [|y L IH]; intros Hl x Hx; [destruct Hx|].
  simpl in Hl; rewrite length_app in Hl.
  pose proof (flat_map_length_le1 f L Hf) as Hle; pose proof (Hf y) as Hy.
  destruct Hx as [<-|Hx]; [lia|apply IH; [lia|exact Hx]].
Qed.

(** An extraction with [k] cubes has no void slot and lists the slot
    cubes in order. *)
Lemma extract_full (num_vars k : Z) (model : Z -> bool) :
  length (extract_esop num_vars k model) = Z.to_nat k ->
  (forall j, In j (zrange k) -> void_term num_vars k model j = false) /\
  extract_esop num_vars k model = map (slot_cube num_vars k model) (zrange k).
Proof.
  rewrite extract_esop_decode; intros Hl.
  assert (Hv : forall j, In j (zrange k) -> void_term num_vars k model j = false).
  { intros j Hj; unfold decode_esop in Hl; rewrite <- (zrange_length k) in Hl.
    assert (Hle : forall x, (length (match decode_term num_vars k model x with
                                     | Some c => [c] | None => [] end) <= 1)%nat)
      by (intros x; destruct (decode_term num_vars k model x); simpl; lia).
    pose proof (flat_map_full _ (zrange k) Hle Hl j Hj) as H; cbv beta in H.
    unfold decode_term in H; destruct (void_term num_vars k model j);
      [discriminate|reflexivity]. }
  split; [exact Hv|].
  unfold decode_esop; clear Hl.
  induction (zrange k) as [|j L IH]; simpl; [reflexivity|].
  unfold decode_term at 1; rewrite Hv by (left; reflexivity).
  simpl; f_equal; apply IH; intros j' Hj'; apply Hv; right; exact Hj'.
Qed.

Lemma slot_cube_inj (num_vars k : Z) (model model' : Z -> bool) (j j' l : Z) :
  void_term num_vars k model j = false ->
  void_term num_vars k model' j' = false ->
  slot_cube num_vars k model j = slot_cube num_vars k model' j' ->
  In l (zrange num_vars) ->
  model' (j' * num_vars + l) = model (j * num_vars + l) /\
  model' (num_vars * k + j' * num_vars + l) = model (num_vars * k + j * num_vars + l).
Proof.
  intros Hv Hv' Heq Hl.
  assert (Hnv : forall (m : Z -> bool) i, void_term num_vars k m i = false ->
            m (i * num_vars + l) && m (num_vars * k + i * num_vars + l) = false).
  { intros m i Hvi; apply not_true_iff_false; intros Hpq.
    assert (existsb (fun l => m (i * num_vars + l)
              && m (num_vars * k + i * num_vars + l)) (zrange num_vars) = true)
      by (apply existsb_exists; exists l; split; assumption).
    unfold void_term in Hvi; congruence. }
  pose proof (Hnv model j Hv) as H1; pose proof (Hnv model' j' Hv') as H2.
  apply in_zrange in Hl.
  assert (Hb := f_equal (fun c => Z.testbit (bits c) l) Heq).
  assert (Hm := f_equal (fun c => Z.testbit (mask c) l) Heq).
  unfold slot_cube in Hb, Hm; cbn beta iota in Hb, Hm; simpl in Hb, Hm.
  rewrite !testbit_bitset in Hb, Hm by lia.
  replace (l <? num_vars) with true in Hb, Hm by lia; simpl in Hb, Hm.
  destruct (model (j * num_vars + l)), (model (num_vars * k + j * num_vars + l)),
    (model' (j' * num_vars + l)), (model' (num_vars * k + j' * num_vars + l));
    simpl in *; split; congruence.
Qed.

(** Two full extractions that are reorderings of each other: one of the
    blocking clauses of the first model is false in the second. *)
Lemma perm_blocked (num_vars k : Z) (model model' : Z -> bool) :
  0 <= num_vars -> 0 <= k ->
  length (extract_esop num_vars k model) = Z.to_nat k ->
  length (extract_esop num_vars k model') = Z.to_nat k ->
  Permutation (extract_esop num_vars k model) (extract_esop num_vars k model') ->
  exists c, In c (blocking_clauses num_vars k model) /\
    clause_sat (asg_of model') c = false.
Proof.
  intros Hn Hk Hl Hl' Hp.
  destruct (extract_full _ _ _ Hl) as [Hv He].
  destruct (extract_full _ _ _ Hl') as [Hv' He'].
  rewrite He, He' in Hp.
  destruct (Permutation_map_inv _ _ Hp) as [vs [Hmap Hvs]].
  exists (blocking_clause num_vars k model vs); split.
  - apply in_map, permutations_complete, Permutation_sym, Hvs.
  - assert (Hin : forall v, In v vs -> In v (zrange k))
      by (intros v Hv0; apply (Permutation_in v (Permutation_sym Hvs)); exact Hv0).
    assert (Hlen : length vs = Z.to_nat k)
      by (rewrite <- (Permutation_length Hvs); apply zrange_length).
    apply blocking_clause_false; [exact Hn|exact Hk| |].
    + apply Forall_forall; intros v Hv0; apply Hin in Hv0; apply in_zrange in Hv0; lia.
    + intros j l Hj Hl0.
      rewrite Hlen, Z2Nat.id in Hj by exact Hk.
      assert (Hj' := Hj); apply in_zrange in Hj'.
      assert (Hnth := f_equal (fun L => nth (Z.to_nat j) L (slot_cube num_vars k model' 0))
                        Hmap).
      cbv beta in Hnth.
      rewrite nth_map_zrange in Hnth by exact Hj'.
      rewrite map_nth in Hnth.
      assert (Hvj : In (nth (Z.to_nat j) vs 0) (zrange k))
        by (apply Hin, nth_In; lia).
      apply (slot_cube_inj num_vars k model model' j _ l (Hv j Hj) (Hv' _ Hvj) Hnth Hl0).
Qed.

(** ** Distinctness of the enumerated ESOPs *)

Lemma ForallOrdPairs_app_single {A} (R : A -> A -> Prop) (l : list A) (x : A) :
  ForallOrdPairs R l -> Forall (fun e => R e x) l -> ForallOrdPairs R (l ++ [x]).
Proof.
  induction l as [|y l IH]; simpl; intros Hp Hf.
  - constructor; constructor.
  - inversion Hp as [|? ? Hy Hl]; inversion Hf as [|? ? Hyx Hfl]; subst.
    constructor; [apply Forall_app; split; [exact Hy|constructor; [exact Hyx|constructor]]|].
    apply IH; assumption.
Qed.

Lemma ForallOrdPairs_nth {A} (R : A -> A -> Prop) (l : list A) (d : A) :
  ForallOrdPairs R l ->
  forall i j, (i < j < length l)%nat -> R (nth i l d) (nth j l d).
Proof.
  induction 1 as [|a l Ha Hl IH]; intros i j Hij; simpl in Hij; [lia|].
  destruct i as [|i], j as [|j]; [lia| |lia|].
  - simpl; rewrite Forall_forall in Ha; apply Ha, nth_In; lia.
  - simpl; apply IH; lia.
Qed.

Lemma not_perm_nil {A} (e : list A) : e <> [] -> ~ Permutation e [].
Proof. intros Hne Hp; apply Hne, Permutation_nil, Permutation_sym, Hp. Qed.

(** The loop invariant: every ESOP collected so far is nonempty and no
    model of the current constraints extracts to a reordering of it. *)
Lemma solve_loop_distinct (fuel : nat) (num_vars k : Z) (one_esop : bool)
  (base : constraints) :
  0 <= num_vars -> 0 <= k ->
  (forall m, sat (asg_of m) base = true -> extract_esop num_vars k m <> [] ->
     length (extract_esop num_vars k m) = Z.to_nat k) ->
  forall cs esops es,
  (forall a, sat a cs = true -> sat a base = true) ->
  (forall e, In e esops -> e <> [] /\
     forall m', sat (asg_of m') cs = true -> ~ Permutation e (extract_esop num_vars k m')) ->
  ForallOrdPairs (fun e1 e2 => ~ Permutation e1 e2) esops ->
  solve_loop X fuel num_vars k one_esop cs esops = KDone es ->
  ForallOrdPairs (fun e1 e2 => ~ Permutation e1 e2) es.
Proof.
  intros Hn Hk Hfull; induction fuel as [|fuel IH];
    intros cs esops es Hbase Hold Hpairs Hrun; simpl in Hrun; [discriminate|].
  destruct (solve X cs) as [m|] eqn:Hs; [|injection Hrun as <-; exact Hpairs].
  assert (Hm : sat (asg_of m) cs = true) by (apply solve_sound, Hs).
  destruct (extract_esop num_vars k m) as [|c0 l0] eqn:Ex; [discriminate|].
  destruct one_esop; [discriminate|].
  rewrite <- Ex in Hrun.
  assert (Hne : extract_esop num_vars k m <> []) by (rewrite Ex; discriminate).
  assert (Hsort := sort_perm num_vars (extract_esop num_vars k m)).
  set (x := sort_esop X num_vars (extract_esop num_vars k m)) in *.
  assert (Hcs' : forall a, sat a (fold_left add_clause (blocking_clauses num_vars k m) cs)
                  = true -> sat a cs = true /\
                  forallb (clause_sat a) (blocking_clauses num_vars k m) = true)
    by (intros a Ha; rewrite sat_fold_add_clause in Ha; apply andb_prop, Ha).
  refine (IH _ _ _ _ _ _ Hrun).
  - intros a Ha; apply Hbase, (proj1 (Hcs' a Ha)).
  - intros e He; apply in_app_or in He; destruct He as [He|[<-|[]]].
    + destruct (Hold e He) as [Hne' Hno]; split; [exact Hne'|].
      intros m' Hm'; apply Hno, (proj1 (Hcs' _ Hm')).
    + split.
      * intros Hx; apply Hne, Permutation_nil; rewrite <- Hsort, Hx; reflexivity.
      * intros m' Hm' Hp.
        destruct (Hcs' _ Hm') as [Hm'cs Hbl].
        assert (Hne' : extract_esop num_vars k m' <> []).
        { intros Hnil; rewrite Hnil in Hp; apply Hne, Permutation_nil.
          rewrite <- Hsort; apply Permutation_sym, Hp. }
        destruct (perm_blocked num_vars k m m' Hn Hk
                    (Hfull m (Hbase _ Hm) Hne) (Hfull m' (Hbase _ Hm'cs) Hne')
                    (Permutation_trans (Permutation_sym Hsort) Hp))
          as [c [Hc Hcf]].
        rewrite forallb_forall in Hbl; rewrite (Hbl c Hc) in Hcf; discriminate.
  - apply ForallOrdPairs_app_single; [exact Hpairs|].
    apply Forall_forall; intros e He Hp.
    destruct (Hold e He) as [_ Hno].
    apply (Hno m Hm); rewrite Hp; exact Hsort.
Qed.

Lemma extract_length_no_vars (k : Z) (model : Z -> bool) :
  length (extract_esop 0 k model) = Z.to_nat k.
Proof.
  rewrite extract_esop_decode; unfold decode_esop, decode_term, void_term.
  rewrite (zrange_nonpos 0) by lia; simpl existsb; cbv iota.
  rewrite (flat_map_length_const _ _ 1%nat), zrange_length by reflexivity; lia.
Qed.

(** A pass started with no ESOPs ends, if it ends by unsatisfiability, with
    pairwise non-reorderable ESOPs, when there are no inputs or when no
    smaller number of cubes suffices. *)
Lemma run_k_distinct (fuel : nat) (binary : list ascii) (num_vars : Z)
  (one_esop : bool) (k : Z) (es : list esop) :
  0 <= num_vars -> 0 <= k ->
  num_vars = 0 \/ (forall k', 1 <= k' < k -> ~ exists_esop num_vars binary k') ->
  run_k X fuel binary num_vars one_esop k [] = KDone es ->
  ForallOrdPairs (fun e1 e2 => ~ Permutation e1 e2) es.
Proof.
  intros Hn Hk Hcase Hrun; unfold run_k in Hrun.
  destruct (encode binary num_vars k) as [st|] eqn:He; [|discriminate].
  destruct (INT_MAX <? sid st); [discriminate|].
  destruct (encode_inv binary num_vars k st Hn Hk He) as [_ [_ [_ Hv]]].
  apply (solve_loop_distinct fuel num_vars k one_esop (cs st) Hn Hk) in Hrun;
    [exact Hrun| | |intros e []|constructor].
  - intros m Hm Hne.
    destruct Hcase as [->|Hmin]; [apply extract_length_no_vars|].
    destruct (pass_models binary num_vars k st Hn Hk He Hmin m Hm)
      as [_ [_ [Hnil|Hl]]]; [contradiction|lia].
  - intros a Ha; apply preprocess_sound; assumption.
Qed.

Lemma k_loop_cases (fuel : nat) (binary : list ascii) (num_vars : Z)
  (one_esop : bool) (on_exit : list esop -> outcome) (es : list esop) :
  forall ks,
  k_loop X fuel binary num_vars one_esop ks [] on_exit = Ok es ->
  (exists k, In k ks /\
     ((exists e, run_k X fuel binary num_vars one_esop k [] = KReturn e /\ es = [e])
      \/ run_k X fuel binary num_vars one_esop k [] = KDone es))
  \/ on_exit [] = Ok es.
Proof.
  induction ks as [|k ks IH]; simpl; intros H; [right; exact H|].
  destruct (run_k X fuel binary num_vars one_esop k []) as [e|es'| |] eqn:Er;
    try discriminate.
  - injection H as He; subst es.
    left; exists k; split; [left; reflexivity|left; exists e; split; [exact Er|reflexivity]].
  - destruct (Nat.ltb 0 (length es')) eqn:El.
    + injection H as He; subst es.
      left; exists k; split; [left; reflexivity|right; exact Er].
    + apply Nat.ltb_ge in El; destruct es'; [|simpl in El; lia].
      destruct (IH H) as [[k' [Hk' Hc]]|Hx]; [|right; exact Hx].
      left; exists k'; split; [right; exact Hk'|exact Hc].
Qed.

Lemma loop_exit_distinct (fuel : nat) (binary : list ascii) (num_vars : Z)
  (one_esop : bool) (max : Z) (es : list esop) :
  0 <= num_vars ->
  loop_exit X fuel binary num_vars one_esop max [] = Ok es ->
  ForallOrdPairs (fun e1 e2 => ~ Permutation e1 e2) es.
Proof.
  intros Hn H; unfold loop_exit in H.
  destruct (max =? UINT_MAX); [|injection H as <-; constructor].
  apply k_loop_cases in H.
  destruct H as [[k [[<-|[]] [[e [_ ->]]|Hr]]]|H]; [repeat constructor| |discriminate].
  apply (run_k_distinct fuel binary num_vars one_esop 0); try lia; [|exact Hr].
  right; intros; lia.
Qed.

(** Claim C5: no two ESOPs of a returned sequence are reorderings of each
    other: for any two positions [i < j] of the result, the ESOPs there do
    not have the same multiset of cubes.  This holds with a sound and
    complete solver, and in both modes (in single-solution mode the result
    has at most one ESOP). *)
Theorem exact_synthesis_no_reorderings (fuel : nat) (binary : list ascii)
  (cfg : config) (es : list esop) :
  exact_synthesis_from_binary_string X fuel binary cfg = Ok es ->
  forall i j, (i < j < length es)%nat ->
  ~ Permutation (nth i es []) (nth j es []).
Proof.
  intros Hres i j Hij;
    apply (ForallOrdPairs_nth (fun e1 e2 => ~ Permutation e1 e2)); [|exact Hij].
  unfold exact_synthesis_from_binary_string, num_vars_of in Hres.
  destruct (Z.of_nat (length binary) =? 0); [discriminate|].
  set (nv := Z.log2 (Z.of_nat (length binary))) in *.
  assert (Hnv : 0 <= nv) by apply Z.log2_nonneg.
  destruct (64 <=? nv); [discriminate|].
  destruct (negb _); [discriminate|].
  destruct (32 <? nv); [discriminate|].
  pose proof (max_number_of_cubes_range cfg) as Hmax.
  destruct (Z.eq_dec nv 0) as [H0|H0].
  - apply k_loop_cases in Hres.
    destruct Hres as [[k [Hk [[e [_ ->]]|Hr]]]|Hexit].
    + repeat constructor.
    + apply in_map_iff in Hk; destruct Hk as [k0 [<- _]].
      apply (run_k_distinct fuel binary nv (one_esop_of cfg) (Z.of_nat k0));
        [lia|lia|left; exact H0|exact Hr].
    + apply (loop_exit_distinct _ _ _ _ _ _ Hnv Hexit).
  - apply (k_loop_min fuel binary nv (one_esop_of cfg) _ es ltac:(lia)
             (Z.to_nat (max_number_of_cubes cfg)) 1) in Hres;
      [|lia|intros; lia].
    destruct Hres as [[k [Hk [Hmin [[e [_ ->]]|[Hr _]]]]]|[_ Hexit]].
    + repeat constructor.
    + apply (run_k_distinct fuel binary nv (one_esop_of cfg) k);
        [lia|lia|right; exact Hmin|exact Hr].
    + apply (loop_exit_distinct _ _ _ _ _ _ Hnv Hexit).
Qed.

(** ** The constant-zero table *)

Lemma sid_encode_rows (binary : list ascii) (num_vars k : Z) :
  0 <= k -> forall rows st,
  sid (fold_left (fun st r => encode_row binary num_vars k r st) rows st)
  <= sid st + k * Z.of_nat (length rows).
Proof.
  intros Hk; induction rows as [|r rows IH]; intros st; simpl; [lia|].
  specialize (IH (encode_row binary num_vars k r st)).
  rewrite sid_encode_row in IH; destruct (is_defined (char_at binary r)); lia.
Qed.

(** A cube over the inputs covers the row given by its own bits. *)
Lemma cube_over_own_row (num_vars : Z) (c : cube) :
  0 <= num_vars -> cube_over num_vars c = true ->
  cube_covers c (bits c) = true /\ 0 <= bits c < 2 ^ num_vars.
Proof.
  intros Hn Hc; unfold cube_over in Hc.
  apply andb_prop in Hc; destruct Hc as [Hc Hb]; apply andb_prop in Hc;
    destruct Hc as [Hm0 Hm1]; apply Z.leb_le in Hm0; apply Z.ltb_lt in Hm1;
    apply Z.eqb_eq in Hb.
  split; [unfold cube_covers; rewrite Z.lxor_nilpotent, Z.land_0_l; reflexivity|].
  assert (Hmod : bits c mod 2 ^ num_vars = bits c).
  { apply Z.bits_inj'; intros t Ht.
    destruct (Z.lt_ge_cases t num_vars) as [Hlt|Hge].
    - apply Z.mod_pow2_bits_low; exact Hlt.
    - rewrite Z.mod_pow2_bits_high by lia.
      assert (Hmt : Z.testbit (mask c) t = false).
      { rewrite <- (Z.mod_small (mask c) (2 ^ num_vars)) by lia.
        apply Z.mod_pow2_bits_high; lia. }
      assert (H := f_equal (fun v => Z.testbit v t) Hb); simpl in H.
      rewrite Z.land_spec, Z.lnot_spec, Hmt, Z.bits_0 in H by lia.
      rewrite andb_true_r in H; symmetry; exact H. }
  rewrite <- Hmod; apply Z.mod_pos_bound, Z.pow_pos_nonneg; lia.
Qed.

Lemma char_at_zero_table (binary : list ascii) (r : Z) :
  Forall (fun ch => ch = "0"%char) binary ->
  (char_at binary r =? "1")%char = false.
Proof.
  intros Hz; unfold char_at.
  destruct (nth_in_or_default (Z.to_nat r) binary zero) as [Hin|Hd].
  - rewrite Forall_forall in Hz; rewrite (Hz _ Hin); reflexivity.
  - rewrite Hd; reflexivity.
Qed.

(** On an all-'0' table, the pass for one cube, with at least one solver
    call allowed, returns the empty ESOP. *)
Lemma run_k_zero_table (fuel : nat) (binary : list ascii) (num_vars : Z)
  (one_esop : bool) :
  1 <= num_vars <= 30 -> Z.of_nat (length binary) = 2 ^ num_vars ->
  Forall (fun ch => ch = "0"%char) binary -> (1 <= fuel)%nat ->
  run_k X fuel binary num_vars one_esop 1 [] = KReturn [].
Proof.
  intros Hn Hlen Hz Hf.
  assert (He := encode_fold binary num_vars 1 ltac:(lia)).
  set (st := fold_left _ _ _) in He.
  destruct (encode_inv binary num_vars 1 st ltac:(lia) ltac:(lia) He)
    as [_ [_ [_ Hv]]].
  assert (Hsid : sid st <= 1 + 2 * num_vars + 2 ^ num_vars).
  { pose proof (sid_encode_rows binary num_vars 1 ltac:(lia)
                  (zrange (2 ^ num_vars)) (mk_enc (1 + 2 * num_vars * 1) 0
                                             constraints_empty)) as H.
    rewrite zrange_length, Z2Nat.id in H by (apply Z.pow_nonneg; lia).
    cbn [sid] in H; unfold st; lia. }
  assert (Hsmall : 2 ^ num_vars <= 2 ^ 30) by (apply Z.pow_le_mono_r; lia).
  unfold run_k; rewrite He.
  replace (INT_MAX <? sid st) with false
    by (symmetry; apply Z.ltb_ge; unfold INT_MAX; lia).
  assert (Hex : exists_esop num_vars binary 1).
  { exists []; split; [simpl; lia|split; [constructor|]].
    intros r _ _; rewrite char_at_zero_table by exact Hz; reflexivity. }
  destruct (exists_esop_sat binary num_vars 1 st ltac:(lia) ltac:(lia) He Hex)
    as [a Ha].
  destruct (gauss_complete _ _ Ha) as [b1 Hb1].
  destruct (xor_to_cnf_complete (sid st) _ _ (gauss_vars _ _ Hv) Hb1) as [b2 Hb2].
  destruct (symmetry_complete _ _ Hb2) as [b3 Hb3].
  destruct (solve_complete _ _ Hb3) as [m Hm].
  assert (Hms := solve_sound _ _ Hm).
  apply (preprocess_sound st) in Hms; [|exact Hv].
  destruct (pass_models binary num_vars 1 st ltac:(lia) ltac:(lia) He
              ltac:(intros; lia) m Hms) as [Hc [Ho Hl]].
  assert (Hnil : extract_esop num_vars 1 m = []).
  { destruct Hl as [Hnil|Hl]; [exact Hnil|exfalso].
    destruct (extract_esop num_vars 1 m) as [|c [|c' e']]; simpl in Hl; try lia.
    inversion Ho as [|? ? Hco _]; subst.
    destruct (cube_over_own_row num_vars c ltac:(lia) Hco) as [Hcov Hr].
    specialize (Hc (bits c) Hr).
    rewrite char_at_zero_table in Hc by exact Hz.
    assert (Hd : is_defined (char_at binary (bits c)) = true).
    { unfold is_defined, char_at.
      rewrite Forall_forall in Hz;
        rewrite (Hz (nth (Z.to_nat (bits c)) binary zero)); [reflexivity|].
      apply nth_In; lia. }
    specialize (Hc Hd); unfold esop_eval in Hc; simpl in Hc.
    rewrite Hcov in Hc; discriminate. }
  destruct fuel as [|fuel]; [lia|simpl].
  rewrite Hm, Hnil; reflexivity.
Qed.

(** Claim C7 (amended): for an all-'0' table of length [2^n] with
    [1 <= n <= 30], a maximum of at least one cube and a solver that may be
    called at least once, the pass for [k = 1] returns the empty ESOP and
    the function returns the sequence holding only the empty ESOP.  (For
    [n = 0] the table "0" gives other results, and for [n = 31] the
    variable counter of the pass for [k = 1] overflows.) *)
Theorem exact_synthesis_zero_table (fuel : nat) (binary : list ascii)
  (cfg : config) (num_vars : Z) :
  1 <= num_vars <= 30 -> Z.of_nat (length binary) = 2 ^ num_vars ->
  Forall (fun ch => ch = "0"%char) binary ->
  1 <= max_number_of_cubes cfg -> (1 <= fuel)%nat ->
  run_k X fuel binary num_vars (one_esop_of cfg) 1 [] = KReturn [] /\
  exact_synthesis_from_binary_string X fuel binary cfg = Ok [[]].
Proof.
  intros Hn Hlen Hz Hmax Hf.
  assert (Hr := run_k_zero_table fuel binary num_vars (one_esop_of cfg) Hn Hlen Hz Hf).
  split; [exact Hr|].
  unfold exact_synthesis_from_binary_string, num_vars_of; rewrite Hlen.
  assert (Hp : (2 ^ num_vars =? 0) = false)
    by (apply Z.eqb_neq; apply Z.pow_nonzero; lia).
  rewrite Hp, Z.log2_pow2 by lia.
  replace (64 <=? num_vars) with false by lia.
  rewrite Z.shiftl_1_l, Z.eqb_refl; simpl negb; cbv iota.
  replace (32 <? num_vars) with false by lia.
  destruct (Z.to_nat (max_number_of_cubes cfg)) as [|M] eqn:EM; [lia|].
  simpl; rewrite Hr; reflexivity.
Qed.

End Completeness.

(** ** Termination of the solve-extract-block loop *)

Lemma bool_lists_length (n : nat) : length (bool_lists n) = (2 ^ n)%nat.
Proof.
  induction n as [|n IH]; simpl; [reflexivity|].
  rewrite length_app, !length_map, IH; lia.
Qed.

Lemma bool_lists_complete (l : list bool) : In l (bool_lists (length l)).
Proof.
  induction l as [|b l IH]; simpl; [left; reflexivity|].
  apply in_or_app; destruct b; [right|left]; apply in_map, IH.
Qed.

Lemma pq_values_length (num_vars k : Z) (model : Z -> bool) :
  length (pq_values num_vars k model) = Z.to_nat (2 * num_vars * k).
Proof. unfold pq_values; rewrite length_map; apply zrange_length. Qed.

(** Every model of the constraints extended with the blocking clauses of
    [model] differs from [model] on some p- or q-variable. *)
Lemma blocked_pq_values (num_vars k : Z) (model model' : Z -> bool)
  (cs : constraints) :
  0 <= num_vars -> 0 <= k ->
  sat (asg_of model')
    (fold_left add_clause (blocking_clauses num_vars k model) cs) = true ->
  pq_values num_vars k model' <> pq_values num_vars k model.
Proof.
  intros Hn Hk Hs Heq.
  rewrite sat_fold_add_clause in Hs; apply andb_prop in Hs; destruct Hs as [_ Hs].
  rewrite forallb_forall in Hs.
  assert (Hin : In (blocking_clause num_vars k model (zrange k))
                  (blocking_clauses num_vars k model))
    by (apply in_map, permutations_complete; reflexivity).
  assert (Hagree : forall i, 0 <= i < 2 * num_vars * k -> model' i = model i).
  { intros i Hi.
    assert (H := f_equal (fun L => nth (Z.to_nat i) L false) Heq); simpl in H.
    unfold pq_values in H; rewrite !nth_map_zrange in H by exact Hi; exact H. }
  pose proof (Hs _ Hin) as Hc.
  rewrite (blocking_clause_false num_vars k model model' (zrange k)) in Hc;
    [discriminate|exact Hn|exact Hk| |].
  - apply Forall_forall; intros v Hv; apply in_zrange in Hv; lia.
  - intros j l Hj Hl; rewrite zrange_length, Z2Nat.id in Hj by exact Hk.
    apply in_zrange in Hj; apply in_zrange in Hl.
    unfold zrange; rewrite (map_nth Z.of_nat (seq 0 (Z.to_nat k)) 0%nat).
    rewrite seq_nth by lia; simpl Z.of_nat; rewrite Z2Nat.id by lia.
    split; apply Hagree; nia.
Qed.

Lemma solve_loop_seen (num_vars k : Z) (one_esop : bool) :
  0 <= num_vars -> 0 <= k ->
  forall fuel cs esops (seen : list (list bool)),
  NoDup seen ->
  (forall s, In s seen -> length s = Z.to_nat (2 * num_vars * k)) ->
  (forall s m', In s seen -> sat (asg_of m') cs = true ->
     pq_values num_vars k m' <> s) ->
  (2 ^ Z.to_nat (2 * num_vars * k) < length seen + fuel)%nat ->
  solve_loop X fuel num_vars k one_esop cs esops <> KOutOfFuel.
Proof.
  intros Hn Hk fuel; induction fuel as [|fuel IH];
    intros cs esops seen Hnd Hlen Hnew Hfuel.
  - exfalso.
    assert (Hincl : incl seen (bool_lists (Z.to_nat (2 * num_vars * k)))).
    { intros s Hs; rewrite <- (Hlen s Hs); apply bool_lists_complete. }
    pose proof (NoDup_incl_length Hnd Hincl) as H.
    rewrite bool_lists_length in H; lia.
  - simpl; destruct (solve X cs) as [m|] eqn:Hs; [|discriminate].
    assert (Hm := solve_sound _ _ Hs).
    destruct (extract_esop num_vars k m) as [|c e]; [discriminate|].
    destruct one_esop; [discriminate|].
    apply (IH _ _ (pq_values num_vars k m :: seen)).
    + constructor; [|exact Hnd].
      intros Hin; exact (Hnew _ m Hin Hm eq_refl).
    + intros s [<-|Hs']; [apply pq_values_length|apply Hlen, Hs'].
    + intros s m' [<-|Hs'] Hm'.
      * apply (blocked_pq_values num_vars k m m' cs Hn Hk Hm').
      * rewrite sat_fold_add_clause in Hm'; apply andb_prop in Hm'.
        apply (Hnew s m' Hs' (proj1 Hm')).
    + cbn [length]; lia.
Qed.

Lemma sat_fold_add_clause_base (a : Z -> bool) (L : list (list Z))
  (cs : constraints) :
  sat a (fold_left add_clause L cs) = true -> sat a cs = true.
Proof. rewrite sat_fold_add_clause; intros H; apply andb_prop in H; apply H. Qed.

(** Claim C6: for [n, k >= 0] (the solver returning only satisfying
    assignments): each model contributes [k!] blocking clauses; after they
    are added (and whatever is added later), the solver never returns a
    model whose p/q values are those of the model with its term slots
    permuted by any permutation [vs] of [0..k-1]; and the loop for [k]
    ends without exhausting its budget once it may call the solver more
    than [2^(2nk)] times, the number of p/q assignments. *)
Theorem solve_loop_blocking (num_vars k : Z) :
  0 <= num_vars -> 0 <= k ->
  (forall model, length (blocking_clauses num_vars k model) = fact (Z.to_nat k)) /\
  (forall model model' cs later vs,
     solve X (fold_left add_clause later
                (fold_left add_clause (blocking_clauses num_vars k model) cs))
     = Some model' ->
     Permutation vs (zrange k) ->
     ~ (forall j l, 0 <= j < k -> 0 <= l < num_vars ->
          model' (nth (Z.to_nat j) vs 0 * num_vars + l) = model (j * num_vars + l) /\
          model' (num_vars * k + nth (Z.to_nat j) vs 0 * num_vars + l)
          = model (num_vars * k + j * num_vars + l))) /\
  (forall fuel one_esop cs esops,
     (2 ^ Z.to_nat (2 * num_vars * k) < fuel)%nat ->
     solve_loop X fuel num_vars k one_esop cs esops <> KOutOfFuel).
Proof.
  intros Hn Hk; split; [apply blocking_clauses_length|split].
  - intros model model' cs later vs Hs Hvs Hag.
    apply solve_sound, sat_fold_add_clause_base in Hs.
    rewrite sat_fold_add_clause in Hs; apply andb_prop in Hs; destruct Hs as [_ Hs].
    rewrite forallb_forall in Hs.
    assert (Hlen : length vs = Z.to_nat k)
      by (rewrite (Permutation_length Hvs); apply zrange_length).
    pose proof (Hs _ (in_map _ _ _ (permutations_complete _ _ Hvs))) as Hc.
    rewrite (blocking_clause_false num_vars k model model' vs) in Hc;
      [discriminate|exact Hn|exact Hk| |].
    + apply Forall_forall; intros v Hv.
      apply (Permutation_in v Hvs), in_zrange in Hv; lia.
    + intros j l Hj Hl; rewrite Hlen, Z2Nat.id in Hj by exact Hk.
      apply in_zrange in Hj; apply in_zrange in Hl; apply Hag; assumption.
  - intros fuel one_esop cs esops Hf.
    apply (solve_loop_seen num_vars k one_esop Hn Hk fuel cs esops []);
      [apply NoDup_nil|intros s []|intros s m' []|cbn [length]; lia].
Qed.

End Soundness.

(** ** Extraction against the specified decoding *)

(** Claim C4: for every model, the ESOP extracted by the code is the one
    the specification describes: term [j] is void, and left out, when
    p(j,l) and q(j,l) are both true for some [l]; otherwise [l] is a
    positive literal when p(j,l) holds, a negative one when q(j,l) holds and
    don't-care when neither does, and the cubes of the non-void terms are
    listed in the order of [j]. *)
Theorem extract_esop_as_specified (num_vars k : Z) (model : Z -> bool) :
  extract_esop num_vars k model = decode_esop num_vars k model.
Proof. exact (extract_esop_decode num_vars k model). Qed.

(** ** The checks on the table length *)

(** Claim C8: a table whose length (below [2^64]) is not a power of two,
    or exceeds [2^32], never reaches the encoder: the result does not
    depend on the collaborators or the budget.  A nonempty such table fails
    an assert; the empty table is not rejected, [std::log2(0)] makes the
    code undefined. *)
Theorem exact_synthesis_rejects_malformed (X : externals) (fuel : nat)
  (binary : list ascii) (cfg : config) :
  Z.of_nat (length binary) < 2 ^ 64 ->
  ((forall n, 0 <= n -> Z.of_nat (length binary) <> 2 ^ n) \/
   2 ^ 32 < Z.of_nat (length binary)) ->
  exact_synthesis_from_binary_string X fuel binary cfg
  = match binary with [] => Undefined | _ => Aborted end.
Proof.
  intros Hsmall Hbad.
  unfold exact_synthesis_from_binary_string, num_vars_of.
  destruct binary as [|ch t]; [reflexivity|].
  set (size := Z.of_nat (length (ch :: t))) in *.
  assert (Hpos : 0 < size) by (unfold size; simpl length; lia).
  replace (size =? 0) with false by lia.
  assert (Hlog : Z.log2 size < 64) by (apply Z.log2_lt_pow2; lia).
  assert (Hnv : 0 <= Z.log2 size) by apply Z.log2_nonneg.
  replace (64 <=? Z.log2 size) with false by lia.
  rewrite Z.shiftl_1_l.
  destruct (Z.eqb_spec size (2 ^ Z.log2 size)) as [Heq|Hne]; [|reflexivity].
  simpl negb; cbv iota.
  destruct Hbad as [Hnp|Hbig]; [exfalso; exact (Hnp _ Hnv Heq)|].
  assert (H32 : 32 < Z.log2 size).
  { rewrite Heq in Hbig; apply (Z.pow_lt_mono_r_iff 2); lia. }
  replace (32 <? Z.log2 size) with true by lia; reflexivity.
Qed.

(** Claim C9: the encoder visits the rows [0 .. 2^n - 1] once each, in
    increasing order, for [n <= 31]; for [n = 32], an accepted length,
    [1 << 32] on an [int] is undefined, so no encoding exists and the
    function is undefined as soon as the pass for [k = 1] runs. *)
Theorem encode_rows_up_to_32 (X : externals) (fuel : nat)
  (binary : list ascii) (cfg : config) :
  Z.of_nat (length binary) = 2 ^ 32 -> 1 <= max_number_of_cubes cfg ->
  (forall num_vars k, 0 <= num_vars <= 31 ->
     encode binary num_vars k
     = Some (fold_left (fun st r => encode_row binary num_vars k r st)
               (zrange (2 ^ num_vars))
               (mk_enc (1 + 2 * num_vars * k) 0 constraints_empty))) /\
  (forall k, encode binary 32 k = None) /\
  exact_synthesis_from_binary_string X fuel binary cfg = Undefined.
Proof.
  intros Hlen Hmax.
  split; [intros num_vars k Hn; apply encode_fold, Hn|].
  split; [intros k; apply encode_none; lia|].
  unfold exact_synthesis_from_binary_string, num_vars_of; rewrite Hlen.
  replace (2 ^ 32 =? 0) with false by reflexivity.
  rewrite (Z.log2_pow2 32) by lia.
  replace (64 <=? 32) with false by reflexivity.
  replace (2 ^ 32 =? Z.shiftl 1 32) with true by reflexivity.
  replace (32 <? 32) with false by reflexivity.
  cbv iota beta; simpl negb; cbv iota.
  destruct (Z.to_nat (max_number_of_cubes cfg)) as [|M] eqn:EM; [lia|].
  cbn [seq map k_loop]; unfold run_k.
  rewrite encode_none by lia; reflexivity.
Qed.

(** ** The empty ESOP *)

(** Claim C10: when the solver's model extracts to the empty ESOP, the
    loop for [k] returns the empty ESOP alone, in either mode and whatever
    ESOPs it has collected for this [k]; and a pass that returns it ends the
    function with the sequence holding only the empty ESOP. *)
Theorem empty_esop_returns (X : externals) (fuel : nat) (num_vars k : Z)
  (one_esop : bool) (cs : constraints) (esops : list esop)
  (model : Z -> bool) :
  solve X cs = Some model -> extract_esop num_vars k model = [] ->
  solve_loop X (S fuel) num_vars k one_esop cs esops = KReturn [] /\
  (forall binary ks on_exit,
     run_k X fuel binary num_vars one_esop k esops = KReturn [] ->
     k_loop X fuel binary num_vars one_esop (k :: ks) esops on_exit = Ok [[]]).
Proof.
  intros Hs He; split.
  - simpl; rewrite Hs, He; reflexivity.
  - intros binary ks on_exit Hr; simpl; rewrite Hr; reflexivity.
Qed.

(** * Further properties of the encoder and the driver *)

(** ** Variable numbering of the encoder *)

Lemma encode_rows_counter (binary : list ascii) (num_vars k : Z) :
  forall rows st,
  sid st = 1 + 2 * num_vars * k + sample_counter st * k ->
  sid (fold_left (fun st r => encode_row binary num_vars k r st) rows st)
  = 1 + 2 * num_vars * k
    + sample_counter (fold_left (fun st r => encode_row binary num_vars k r st)
                        rows st) * k /\
  sample_counter (fold_left (fun st r => encode_row binary num_vars k r st) rows st)
  = sample_counter st + Z.of_nat (count_defined binary rows).
Proof.
  induction rows as [|r rows IH]; intros st H; cbn [fold_left]; [split; [exact H|unfold count_defined; simpl; lia]|].
  unfold count_defined in *; simpl filter.
  destruct (is_defined (char_at binary r)) eqn:E.
  - destruct (IH (encode_row binary num_vars k r st)) as [H1 H2].
    + rewrite encode_row_eq; cbv zeta; rewrite E; cbn [sid sample_counter]; rewrite H; ring.
    + split; [exact H1|]; rewrite H2, encode_row_eq; cbv zeta; rewrite E.
      cbn [length sample_counter]; lia.
  - destruct (IH (encode_row binary num_vars k r st)) as [H1 H2].
    + rewrite encode_row_eq; cbv zeta; rewrite E; exact H.
    + split; [exact H1|]; rewrite H2, encode_row_eq; cbv zeta; rewrite E; reflexivity.
Qed.

(** From the start of the row loop of the pass for [k], after any sequence
    of rows, [sid = 1 + 2nk + sample_counter * k] and [sample_counter] is
    the number of '0'/'1' rows encoded so far.  So the assert that checks
    [sid == 1 + 2*num_vars*k + sample_counter*k + j] before the [j]-th
    z-variable of a row is allocated never fails. *)
Theorem encode_sid_counter (binary : list ascii) (num_vars k : Z)
  (rows : list Z) :
  let st := fold_left (fun st r => encode_row binary num_vars k r st) rows
              (mk_enc (1 + 2 * num_vars * k) 0 constraints_empty) in
  sid st = 1 + 2 * num_vars * k + sample_counter st * k /\
  sample_counter st = Z.of_nat (count_defined binary rows).
Proof.
  intros st; unfold st.
  destruct (encode_rows_counter binary num_vars k rows
              (mk_enc (1 + 2 * num_vars * k) 0 constraints_empty)) as [H1 H2];
    [simpl; lia|].
  split; [exact H1|rewrite H2; reflexivity].
Qed.

Lemma encode_rows_sizes (binary : list ascii) (num_vars k : Z) :
  0 <= num_vars -> 0 <= k ->
  forall rows st,
  length (clauses (cs (fold_left (fun st r => encode_row binary num_vars k r st)
                         rows st)))
  = (length (clauses (cs st))
     + count_defined binary rows * (Z.to_nat k * Z.to_nat num_vars + Z.to_nat k))%nat /\
  length (xor_clauses (cs (fold_left (fun st r => encode_row binary num_vars k r st)
                             rows st)))
  = (length (xor_clauses (cs st)) + count_defined binary rows)%nat.
Proof.
  intros Hn Hk; induction rows as [|r rows IH]; intros st; cbn [fold_left]; [unfold count_defined; cbn [filter length]; lia|].
  unfold count_defined in *; simpl filter.
  destruct (IH (encode_row binary num_vars k r st)) as [H1 H2].
  rewrite H1, H2, encode_row_eq; cbv zeta.
  destruct (is_defined (char_at binary r)); [|split; reflexivity].
  simpl cs; simpl clauses; simpl xor_clauses.
  rewrite !length_app, length_map, zrange_length.
  rewrite (flat_map_length_const _ _ (Z.to_nat num_vars)).
  - rewrite zrange_length; simpl length; split; lia.
  - intros j _; rewrite length_map; apply zrange_length.
Qed.

(** For [n <= 31] the constraint set of the pass for [k] has [k*n + k]
    clauses and one XOR constraint per '0'/'1' row of the table, and none
    for the other rows. *)
Theorem encode_size (binary : list ascii) (num_vars k : Z) (st : enc_state) :
  0 <= num_vars <= 31 -> 0 <= k -> encode binary num_vars k = Some st ->
  length (clauses (cs st))
  = (count_defined binary (zrange (2 ^ num_vars))
     * (Z.to_nat k * Z.to_nat num_vars + Z.to_nat k))%nat /\
  length (xor_clauses (cs st)) = count_defined binary (zrange (2 ^ num_vars)).
Proof.
  intros Hn Hk He; rewrite encode_fold in He by exact Hn.
  injection He as <-.
  destruct (encode_rows_sizes binary num_vars k ltac:(lia) Hk (zrange (2 ^ num_vars))
              (mk_enc (1 + 2 * num_vars * k) 0 constraints_empty)) as [H1 H2].
  split; [etransitivity; [exact H1|]|etransitivity; [exact H2|]]; reflexivity.
Qed.

(** Every literal of the constraint set built for [k] names a variable in
    [1, sid), and the XOR constraints only use variables in that range, so
    the [sid] handed to [xor_clauses_to_cnf] is above every variable in
    use; [sid] is at least [1 + 2nk], past the p- and q-variables. *)
Theorem encode_variables_below_sid (binary : list ascii) (num_vars k : Z)
  (st : enc_state) :
  0 <= num_vars -> 0 <= k -> encode binary num_vars k = Some st ->
  1 + 2 * num_vars * k <= sid st /\
  Forall (Forall (fun x => 0 < Z.abs x < sid st)) (clauses (cs st)) /\
  Forall (fun x => Forall (fun v => 0 < v < sid st) (fst x)) (xor_clauses (cs st)).
Proof.
  intros Hn Hk He.
  destruct (encode_inv binary num_vars k st Hn Hk He) as [_ [_ [Hs Hv]]].
  split; [exact Hs|exact Hv].
Qed.

(** ** Blocking clauses and extraction *)

(** A blocking clause has two literals per term and variable, and each
    names a p- or q-variable (ids [1 .. 2nk]); it never names a
    z-variable or a variable added by the preprocessing. *)
Theorem blocking_clause_shape (num_vars k : Z) (model : Z -> bool) (vs : list Z) :
  0 <= num_vars -> Forall (fun v => 0 <= v < k) vs ->
  length (blocking_clause num_vars k model vs)
  = (2 * Z.to_nat num_vars * length vs)%nat /\
  Forall (fun x => 1 <= Z.abs x <= 2 * num_vars * k)
    (blocking_clause num_vars k model vs).
Proof.
  intros Hn Hvs; unfold blocking_clause; split.
  - rewrite (flat_map_length_const _ _ (2 * Z.to_nat num_vars)).
    + rewrite zrange_length, Nat2Z.id; lia.
    + intros j _; rewrite (flat_map_length_const _ _ 2%nat), zrange_length by
        reflexivity; lia.
  - apply Forall_forall; intros x Hx.
    apply in_flat_map in Hx; destruct Hx as [j [Hj Hx]].
    apply in_flat_map in Hx; destruct Hx as [l [Hl Hx]].
    apply in_zrange in Hj; apply in_zrange in Hl.
    assert (Hv : 0 <= nth (Z.to_nat j) vs 0 < k).
    { rewrite Forall_forall in Hvs; apply Hvs, nth_In; lia. }
    set (v := nth (Z.to_nat j) vs 0) in *.
    assert (0 <= v * num_vars) by nia.
    assert (v * num_vars + l < num_vars * k) by nia.
    destruct Hx as [<-|[<-|[]]];
      [destruct (model (j * num_vars + l))|destruct (model (num_vars * k + j * num_vars + l))];
      rewrite ?Z.abs_opp; rewrite Z.abs_eq by lia; nia.
Qed.

(** The extracted ESOP has at most [k] cubes, and each is a cube over the
    [n] inputs: its mask is below [2^n] and its bits lie inside its mask. *)
Theorem extract_esop_shape (num_vars k : Z) (model : Z -> bool) :
  0 <= num_vars ->
  (length (extract_esop num_vars k model) <= Z.to_nat k)%nat /\
  Forall (fun c => cube_over num_vars c = true) (extract_esop num_vars k model).
Proof.
  intros Hn; rewrite extract_esop_decode.
  split; [apply decode_length|apply decode_cubes_over, Hn].
Qed.

Lemma cube_over_bits_high (num_vars : Z) (c : cube) (t : Z) :
  0 <= num_vars -> cube_over num_vars c = true -> num_vars <= t ->
  Z.testbit (bits c) t = false /\ Z.testbit (mask c) t = false.
Proof.
  intros Hn Hc Ht.
  destruct (cube_over_own_row num_vars c Hn Hc) as [_ Hb].
  unfold cube_over in Hc; apply andb_prop in Hc; destruct Hc as [Hc _].
  apply andb_prop in Hc; destruct Hc as [Hm0 Hm1].
  apply Z.leb_le in Hm0; apply Z.ltb_lt in Hm1.
  split.
  - rewrite <- (Z.mod_small (bits c) (2 ^ num_vars)) by lia.
    apply Z.mod_pow2_bits_high; lia.
  - rewrite <- (Z.mod_small (mask c) (2 ^ num_vars)) by lia.
    apply Z.mod_pow2_bits_high; lia.
Qed.

Lemma cube_over_bits_in_mask (num_vars : Z) (c : cube) (t : Z) :
  cube_over num_vars c = true -> 0 <= t ->
  Z.testbit (bits c) t = true -> Z.testbit (mask c) t = true.
Proof.
  intros Hc Ht Hb; unfold cube_over in Hc; apply andb_prop in Hc.
  destruct Hc as [_ Hc]; apply Z.eqb_eq in Hc.
  assert (H := f_equal (fun v => Z.testbit v t) Hc); simpl in H.
  rewrite Z.land_spec, Z.lnot_spec, Hb, Z.bits_0 in H by lia.
  destruct (Z.testbit (mask c) t); [reflexivity|discriminate].
Qed.

Lemma cube_bitset_eq (num_vars : Z) (c : cube) (P Q : Z -> bool) :
  0 <= num_vars -> cube_over num_vars c = true ->
  (forall l, 0 <= l < num_vars ->
     P l = Z.testbit (mask c) l && Z.testbit (bits c) l) ->
  (forall l, 0 <= l < num_vars ->
     Q l = Z.testbit (mask c) l && negb (Z.testbit (bits c) l)) ->
  mk_cube (bitset P num_vars) (bitset (fun l => P l || Q l) num_vars) = c.
Proof.
  intros Hn Hc HP HQ.
  pose proof (cube_over_bits_in_mask num_vars c) as Hin.
  assert (Hhi : forall t, num_vars <= t ->
            Z.testbit (bits c) t = false /\ Z.testbit (mask c) t = false)
    by (intros t Ht; apply (cube_over_bits_high num_vars); assumption).
  destruct c as [b m]; cbn [bits mask] in *.
  f_equal; apply Z.bits_inj'; intros t Ht; rewrite testbit_bitset by exact Ht;
    destruct (Z.ltb_spec t num_vars) as [Htn|Htn]; cbn [andb].
  - rewrite HP by lia; specialize (Hin t Hc Ht).
    destruct (Z.testbit b t), (Z.testbit m t); try reflexivity.
    all: discriminate (Hin eq_refl).
  - symmetry; apply (proj1 (Hhi t Htn)).
  - rewrite HP, HQ by lia; specialize (Hin t Hc Ht).
    destruct (Z.testbit b t), (Z.testbit m t); try reflexivity.
    all: discriminate (Hin eq_refl).
  - symmetry; apply (proj2 (Hhi t Htn)).
Qed.

(** The model that places the cubes of [e] in the first slots and voids
    the rest decodes slot by slot to [e]. *)
Lemma decode_term_pattern (num_vars k : Z) (e : esop) (j : Z) :
  1 <= num_vars -> 0 <= j < k ->
  Forall (fun c => cube_over num_vars c = true) e ->
  decode_term num_vars k
    (fun i => pattern_asg num_vars k (esop_P e) (esop_Q e) (i + 1)) j
  = if (Z.to_nat j <? length e)%nat then Some (nth (Z.to_nat j) e cube_empty)
    else None.
Proof.
  intros Hn Hj He.
  assert (Hp : forall l, 0 <= l < num_vars ->
            pattern_asg num_vars k (esop_P e) (esop_Q e) (j * num_vars + l + 1)
            = esop_P e j l).
  { intros l Hl; rewrite <- (pattern_asg_p num_vars k (esop_P e) (esop_Q e) j l) by lia.
    unfold p_var; f_equal; ring. }
  assert (Hq : forall l, 0 <= l < num_vars ->
            pattern_asg num_vars k (esop_P e) (esop_Q e)
              (num_vars * k + j * num_vars + l + 1) = esop_Q e j l).
  { intros l Hl; rewrite <- (pattern_asg_q num_vars k (esop_P e) (esop_Q e) j l) by lia.
    unfold q_var; f_equal; ring. }
  unfold decode_term, void_term.
  destruct (Z.to_nat j <? length e)%nat eqn:Hlt.
  - set (c := nth (Z.to_nat j) e cube_empty).
    assert (Hc : cube_over num_vars c = true).
    { rewrite Forall_forall in He; apply He, nth_In; apply Nat.ltb_lt, Hlt. }
    replace (existsb _ (zrange num_vars)) with false.
    + f_equal.
      apply (cube_bitset_eq num_vars c
               (fun l => pattern_asg num_vars k (esop_P e) (esop_Q e)
                           (j * num_vars + l + 1))
               (fun l => pattern_asg num_vars k (esop_P e) (esop_Q e)
                           (num_vars * k + j * num_vars + l + 1))); [lia|exact Hc| |];
        intros l Hl; rewrite ?Hp, ?Hq by exact Hl;
        unfold esop_P, esop_Q; rewrite Hlt; reflexivity.
    + symmetry; apply not_true_iff_false; intros Hx.
      apply existsb_exists in Hx; destruct Hx as [l [Hl Hx]].
      apply in_zrange in Hl; rewrite Hp, Hq in Hx by lia.
      unfold esop_P, esop_Q in Hx; rewrite Hlt in Hx.
      cbv zeta in Hx; fold c in Hx.
      destruct (Z.testbit (mask c) l), (Z.testbit (bits c) l); cbn in Hx; discriminate Hx.
  - replace (existsb _ (zrange num_vars)) with true; [reflexivity|].
    symmetry; apply existsb_exists; exists 0; split; [apply in_zrange; lia|].
    rewrite Hp, Hq by lia; unfold esop_P, esop_Q; rewrite Hlt; reflexivity.
Qed.

Lemma flat_map_ext_in {A B} (f g : A -> list B) (L : list A) :
  (forall x, In x L -> f x = g x) -> flat_map f L = flat_map g L.
Proof.
  induction L as [|x L IH]; intros H; simpl; [reflexivity|].
  rewrite H by (left; reflexivity); f_equal; apply IH.
  intros y Hy; apply H; right; exact Hy.
Qed.

Lemma flat_map_nil_in {A B} (f : A -> list B) (L : list A) :
  (forall x, In x L -> f x = []) -> flat_map f L = [].
Proof.
  induction L as [|x L IH]; intros H; simpl; [reflexivity|].
  rewrite H by (left; reflexivity); apply IH.
  intros y Hy; apply H; right; exact Hy.
Qed.

(** With at least one input, every ESOP of at most [k] cubes over the
    inputs is the extraction of some model: the encoding for [k] misses no
    candidate ESOP. *)
Theorem extract_esop_onto (num_vars k : Z) (e : esop) :
  1 <= num_vars -> 0 <= k -> (length e <= Z.to_nat k)%nat ->
  Forall (fun c => cube_over num_vars c = true) e ->
  exists model, extract_esop num_vars k model = e.
Proof.
  intros Hn Hk Hlen He.
  exists (fun i => pattern_asg num_vars k (esop_P e) (esop_Q e) (i + 1)).
  rewrite extract_esop_decode; unfold decode_esop.
  rewrite (flat_map_ext_in _ (fun j => if (Z.to_nat j <? length e)%nat
                                       then [nth (Z.to_nat j) e cube_empty] else [])).
  - unfold zrange.
    replace (Z.to_nat k) with (length e + (Z.to_nat k - length e))%nat by lia.
    rewrite seq_app, map_app, flat_map_app.
    rewrite (flat_map_ext_in _ (fun j => [nth (Z.to_nat j) e cube_empty])
               (map Z.of_nat (seq 0 (length e)))).
    + rewrite flat_map_concat_map, map_map.
      replace (concat (map (fun x => [nth (Z.to_nat (Z.of_nat x)) e cube_empty])
                         (seq 0 (length e))))
        with (map (fun i => nth i e cube_empty) (seq 0 (length e))).
      * rewrite map_nth_seq0.
        replace (flat_map _ (map Z.of_nat (seq (0 + length e) _))) with (@nil cube);
          [apply app_nil_r|].
        symmetry; apply flat_map_nil_in; intros j Hj.
        apply in_map_iff in Hj; destruct Hj as [i [<- Hi]]; apply in_seq in Hi.
        rewrite Nat2Z.id; replace (i <? length e)%nat with false
          by (symmetry; apply Nat.ltb_ge; lia); reflexivity.
      * induction (seq 0 (length e)) as [|i L IH]; simpl; [reflexivity|].
        rewrite Nat2Z.id, IH; reflexivity.
    + intros j Hj; apply in_map_iff in Hj; destruct Hj as [i [<- Hi]].
      apply in_seq in Hi; rewrite Nat2Z.id.
      replace (i <? length e)%nat with true by (symmetry; apply Nat.ltb_lt; lia).
      reflexivity.
  - intros j Hj; apply in_zrange in Hj.
    rewrite decode_term_pattern by (lia || exact He).
    destruct (Z.to_nat j <? length e)%nat; reflexivity.
Qed.

(** ** Don't-care symbols *)

(** Two tables agree on their '0'/'1' positions and have don't-care
    symbols at the same places (the symbols there may differ). *)
Definition same_care (c1 c2 : ascii) : Prop :=
  is_defined c1 = is_defined c2 /\ (is_defined c1 = true -> c1 = c2).

Lemma char_at_same_care (b1 b2 : list ascii) (i : Z) :
  Forall2 same_care b1 b2 -> same_care (char_at b1 i) (char_at b2 i).
Proof.
  unfold char_at; generalize (Z.to_nat i); intros n H; revert n.
  induction H as [|c1 c2 b1 b2 Hc H IH]; intros n.
  - destruct n; split; reflexivity.
  - destruct n; [exact Hc|apply IH].
Qed.

Lemma encode_row_same_care (b1 b2 : list ascii) (num_vars k r : Z)
  (st : enc_state) :
  Forall2 same_care b1 b2 ->
  encode_row b1 num_vars k r st = encode_row b2 num_vars k r st.
Proof.
  intros H; destruct (char_at_same_care b1 b2 r H) as [Hd He].
  unfold encode_row; cbv zeta; rewrite Hd.
  destruct (is_defined (char_at b2 r)) eqn:E; [|reflexivity].
  rewrite (He Hd); reflexivity.
Qed.

Lemma encode_same_care (b1 b2 : list ascii) (num_vars k : Z) :
  Forall2 same_care b1 b2 -> encode b1 num_vars k = encode b2 num_vars k.
Proof.
  intros H; unfold encode; destruct (row_bound num_vars) as [bound|]; [|reflexivity].
  f_equal; generalize (Z.to_nat (bound - 1)) 0
    (mk_enc (1 + 2 * num_vars * k) 0 constraints_empty).
  intros fuel; induction fuel as [|fuel IH]; intros m st; cbn [row_loop];
    rewrite (encode_row_same_care b1 b2 num_vars k m st H); [reflexivity|].
  destruct ((m + 1) mod 2 ^ 32 <? bound); [apply IH|reflexivity].
Qed.

Lemma k_loop_same_care (X : externals) (fuel : nat) (b1 b2 : list ascii)
  (num_vars : Z) (one_esop : bool) :
  Forall2 same_care b1 b2 ->
  forall ks esops f g, (forall es, f es = g es) ->
  k_loop X fuel b1 num_vars one_esop ks esops f
  = k_loop X fuel b2 num_vars one_esop ks esops g.
Proof.
  intros H ks; induction ks as [|k ks IH]; intros esops f g Hfg; cbn [k_loop];
    [apply Hfg|].
  unfold run_k; rewrite (encode_same_care b1 b2 num_vars k H).
  destruct (encode b2 num_vars k) as [st|]; [|reflexivity].
  destruct (INT_MAX <? sid st); [reflexivity|].
  destruct (solve_loop X fuel num_vars k one_esop _ esops) as [e|es| |];
    try reflexivity.
  destruct (Nat.ltb 0 (length es)); [reflexivity|apply IH, Hfg].
Qed.

(** The symbols other than '0' and '1' are all don't-cares alike: changing
    any of them into any other such symbol leaves the result of the call
    unchanged. *)
Theorem exact_synthesis_dont_care_symbols (X : externals) (fuel : nat)
  (b1 b2 : list ascii) (cfg : config) :
  Forall2 same_care b1 b2 ->
  exact_synthesis_from_binary_string X fuel b1 cfg
  = exact_synthesis_from_binary_string X fuel b2 cfg.
Proof.
  intros H; unfold exact_synthesis_from_binary_string.
  rewrite (Forall2_length H).
  destruct (num_vars_of (Z.of_nat (length b2))) as [num_vars|]; [|reflexivity].
  destruct (64 <=? num_vars); [reflexivity|].
  destruct (negb _); [reflexivity|].
  destruct (32 <? num_vars); [reflexivity|].
  apply k_loop_same_care; [exact H|].
  intros es; unfold loop_exit; destruct (_ =? UINT_MAX); [|reflexivity].
  apply k_loop_same_care; [exact H|reflexivity].
Qed.

(** ** The outer loop over [k] *)

Lemma k_loop_ext (X : externals) (fuel : nat) (binary : list ascii)
  (num_vars : Z) (one_esop : bool) :
  forall ks esops f g, (forall es, f es = g es) ->
  k_loop X fuel binary num_vars one_esop ks esops f
  = k_loop X fuel binary num_vars one_esop ks esops g.
Proof.
  intros ks; induction ks as [|k ks IH]; intros esops f g H; cbn [k_loop]; [apply H|].
  destruct (run_k X fuel binary num_vars one_esop k esops) as [e|es| |];
    try reflexivity.
  destruct (Nat.ltb 0 (length es)); [reflexivity|apply IH, H].
Qed.

Lemma k_loop_app (X : externals) (fuel : nat) (binary : list ascii)
  (num_vars : Z) (one_esop : bool) (ks2 : list Z) :
  forall ks1 esops f,
  k_loop X fuel binary num_vars one_esop (ks1 ++ ks2) esops f
  = k_loop X fuel binary num_vars one_esop ks1 esops
      (fun es => k_loop X fuel binary num_vars one_esop ks2 es f).
Proof.
  intros ks1; induction ks1 as [|k ks IH]; intros esops f; cbn [k_loop app];
    [reflexivity|].
  destruct (run_k X fuel binary num_vars one_esop k esops) as [e|es| |];
    try reflexivity.
  destruct (Nat.ltb 0 (length es)); [reflexivity|apply IH].
Qed.

(** Started with no solutions, the loop over [k] either ends without
    reaching its exit, or reaches it with no solution. *)
Lemma k_loop_exit_nil (X : externals) (fuel : nat) (binary : list ascii)
  (num_vars : Z) (one_esop : bool) (ks : list Z) :
  (forall f g, k_loop X fuel binary num_vars one_esop ks [] f
               = k_loop X fuel binary num_vars one_esop ks [] g) \/
  (forall h, k_loop X fuel binary num_vars one_esop ks [] h = h []).
Proof.
  induction ks as [|k ks IH]; cbn [k_loop]; [right; reflexivity|].
  destruct (run_k X fuel binary num_vars one_esop k []) as [e|es| |];
    try (left; reflexivity).
  destruct (Nat.ltb 0 (length es)) eqn:E; [left; reflexivity|].
  destruct es; [exact IH|discriminate E].
Qed.

Lemma exact_synthesis_ok_loop (X : externals) (fuel : nat) (binary : list ascii)
  (cfg : config) (es : list esop) :
  exact_synthesis_from_binary_string X fuel binary cfg = Ok es ->
  exists num_vars,
    k_loop X fuel binary num_vars (one_esop_of cfg)
      (map Z.of_nat (seq 1 (Z.to_nat (max_number_of_cubes cfg)))) []
      (loop_exit X fuel binary num_vars (one_esop_of cfg)
         (max_number_of_cubes cfg)) = Ok es.
Proof.
  unfold exact_synthesis_from_binary_string.
  destruct (num_vars_of _) as [num_vars|]; [|discriminate].
  destruct (64 <=? num_vars); [discriminate|].
  destruct (negb _); [discriminate|].
  destruct (32 <? num_vars); [discriminate|].
  intros H; exists num_vars; exact H.
Qed.

(** What a call that returns [Ok es] ended in: no pass found an ESOP
    ([es] empty), or a pass for some [k] returned at once or reported
    UNSAT with the solutions [es]. *)
Lemma exact_synthesis_ok_passes (X : externals) (fuel : nat)
  (binary : list ascii) (cfg : config) (es : list esop) :
  exact_synthesis_from_binary_string X fuel binary cfg = Ok es ->
  es = [] \/
  exists num_vars k,
    (exists e, run_k X fuel binary num_vars (one_esop_of cfg) k [] = KReturn e
               /\ es = [e]) \/
    run_k X fuel binary num_vars (one_esop_of cfg) k [] = KDone es.
Proof.
  intros H; apply exact_synthesis_ok_loop in H; destruct H as [num_vars H].
  apply k_loop_cases in H; destruct H as [[k [_ H]]|H].
  - right; exists num_vars, k; exact H.
  - unfold loop_exit in H; destruct (_ =? UINT_MAX).
    + apply k_loop_cases in H; destruct H as [[k [_ H]]|H]; [|discriminate H].
      right; exists num_vars, k; exact H.
    + left; injection H as <-; reflexivity.
Qed.

Lemma solve_loop_one_esop_done (X : externals) (fuel : nat) (num_vars k : Z) :
  forall cs esops es,
  solve_loop X fuel num_vars k true cs esops = KDone es -> es = esops.
Proof.
  induction fuel as [|fuel IH]; intros cs esops es H; cbn [solve_loop] in H;
    [discriminate H|].
  destruct (solve X cs) as [model|]; [|injection H as <-; reflexivity].
  destruct (extract_esop num_vars k model); discriminate H.
Qed.

(** In single-solution mode ([one_esop] true, the default) a call returns
    at most one ESOP. *)
Theorem exact_synthesis_one_esop_single (X : externals) (fuel : nat)
  (binary : list ascii) (cfg : config) (es : list esop) :
  one_esop_of cfg = true ->
  exact_synthesis_from_binary_string X fuel binary cfg = Ok es ->
  (length es <= 1)%nat.
Proof.
  intros Hone H; apply exact_synthesis_ok_passes in H.
  destruct H as [->|[num_vars [k [[e [_ ->]]|H]]]]; [simpl; lia|simpl; lia|].
  rewrite Hone in H; unfold run_k in H.
  destruct (encode binary num_vars k) as [st|]; [|discriminate H].
  destruct (INT_MAX <? sid st); [discriminate H|].
  apply solve_loop_one_esop_done in H; subst es; simpl; lia.
Qed.

(** The empty ESOP (the constant-0 function) is only ever returned alone:
    the result is [[ [] ]], or none of its ESOPs is empty. *)
Theorem exact_synthesis_empty_alone (X : externals)
  (sort_perm : forall n e, Permutation (sort_esop X n e) e)
  (fuel : nat) (binary : list ascii) (cfg : config) (es : list esop) :
  exact_synthesis_from_binary_string X fuel binary cfg = Ok es ->
  es = [[]] \/ Forall (fun e => e <> []) es.
Proof.
  intros H; apply exact_synthesis_ok_passes in H.
  destruct H as [->|[num_vars [k [[e [_ ->]]|H]]]].
  - right; constructor.
  - destruct e as [|c e]; [left; reflexivity|].
    right; constructor; [discriminate|constructor].
  - right; exact (run_k_done X sort_perm _ _ _ _ _ _ H).
Qed.

(** Raising [maximum_cubes] (below [UINT_MAX]) does not change a result
    other than "no ESOP": the passes for [k = 1, 2, ...] run in order and
    the first that finds an ESOP ends the call, so a larger bound only adds
    passes after it. *)
Theorem exact_synthesis_max_cubes_mono (X : externals) (fuel : nat)
  (binary : list ascii) (cfg1 cfg2 : config) :
  one_esop_of cfg1 = one_esop_of cfg2 ->
  max_number_of_cubes cfg1 <= max_number_of_cubes cfg2 < UINT_MAX ->
  exact_synthesis_from_binary_string X fuel binary cfg1 <> Ok [] ->
  exact_synthesis_from_binary_string X fuel binary cfg2
  = exact_synthesis_from_binary_string X fuel binary cfg1.
Proof.
  intros Hone Hmax Hne.
  pose proof (max_number_of_cubes_range cfg1) as Hr1.
  revert Hne; unfold exact_synthesis_from_binary_string; rewrite Hone.
  destruct (num_vars_of _) as [num_vars|]; [|reflexivity].
  destruct (64 <=? num_vars); [reflexivity|].
  destruct (negb _); [reflexivity|].
  destruct (32 <? num_vars); [reflexivity|].
  set (m1 := max_number_of_cubes cfg1) in *.
  set (m2 := max_number_of_cubes cfg2) in *.
  set (one := one_esop_of cfg2).
  assert (Hexit : forall m, m < UINT_MAX -> forall es,
            loop_exit X fuel binary num_vars one m es = Ok es).
  { intros m Hm es; unfold loop_exit.
    replace (m =? UINT_MAX) with false by lia; reflexivity. }
  rewrite (k_loop_ext X fuel binary num_vars one _ _ _ Ok (Hexit m1 ltac:(lia))).
  rewrite (k_loop_ext X fuel binary num_vars one _ _ _ Ok (Hexit m2 ltac:(lia))).
  replace (Z.to_nat m2) with (Z.to_nat m1 + (Z.to_nat m2 - Z.to_nat m1))%nat by lia.
  rewrite seq_app, map_app, k_loop_app.
  intros Hne.
  destruct (k_loop_exit_nil X fuel binary num_vars one
              (map Z.of_nat (seq 1 (Z.to_nat m1)))) as [Hs|Hs].
  - apply Hs.
  - rewrite Hs in Hne; contradiction.
Qed.

(** With [maximum_cubes] 0 (the configured value 0, or [2^32], which the
    conversion to [unsigned] wraps to 0) no pass runs and an accepted table
    gets the empty result. *)
Theorem exact_synthesis_no_passes (X : externals) (fuel : nat)
  (binary : list ascii) (cfg : config) (num_vars : Z) :
  0 <= num_vars <= 32 -> Z.of_nat (length binary) = 2 ^ num_vars ->
  max_number_of_cubes cfg = 0 ->
  exact_synthesis_from_binary_string X fuel binary cfg = Ok [].
Proof.
  intros Hn Hlen Hm.
  unfold exact_synthesis_from_binary_string, num_vars_of; rewrite Hlen, Hm.
  assert (Hp : (2 ^ num_vars =? 0) = false)
    by (apply Z.eqb_neq; apply Z.pow_nonzero; lia).
  rewrite Hp, Z.log2_pow2 by lia.
  replace (64 <=? num_vars) with false by lia.
  rewrite Z.shiftl_1_l, Z.eqb_refl; simpl negb; cbv iota.
  replace (32 <? num_vars) with false by lia.
  reflexivity.
Qed.

(** ** Single-solution mode against enumeration mode *)

Lemma solve_loop_enum_cases (X : externals) (num_vars k : Z) (fuel : nat) :
  forall cs esops,
  solve_loop X fuel num_vars k false cs esops = KReturn [] \/
  solve_loop X fuel num_vars k false cs esops = KOutOfFuel \/
  exists s, solve_loop X fuel num_vars k false cs esops = KDone (esops ++ s).
Proof.
  induction fuel as [|fuel IH]; intros cs esops; cbn [solve_loop];
    [right; left; reflexivity|].
  destruct (solve X cs) as [model|];
    [|right; right; exists []; rewrite app_nil_r; reflexivity].
  destruct (extract_esop num_vars k model) as [|c e]; [left; reflexivity|].
  cbv iota.
  destruct (IH (fold_left add_clause (blocking_clauses num_vars k model) cs)
              (esops ++ [sort_esop X num_vars (c :: e)])) as [H|[H|[s H]]];
    rewrite H; [left; reflexivity|right; left; reflexivity|].
  right; right; exists (sort_esop X num_vars (c :: e) :: s).
  rewrite <- app_assoc; reflexivity.
Qed.

(** The pass for [k] in the two modes: the first solver call is the same,
    so both report UNSAT at once, or both return the empty ESOP, or the
    single-solution pass returns an ESOP [e] that the enumerating pass
    lists first (sorted), unless it stops on the empty ESOP or runs out. *)
Lemma run_k_modes (X : externals) (fuel : nat) (binary : list ascii)
  (num_vars k : Z) :
  (run_k X fuel binary num_vars true k [] = KDone [] /\
   run_k X fuel binary num_vars false k [] = KDone []) \/
  (run_k X fuel binary num_vars true k [] = KReturn [] /\
   run_k X fuel binary num_vars false k [] = KReturn []) \/
  (exists e, e <> [] /\ run_k X fuel binary num_vars true k [] = KReturn e /\
     (run_k X fuel binary num_vars false k [] = KOutOfFuel \/
      run_k X fuel binary num_vars false k [] = KReturn [] \/
      exists rest, run_k X fuel binary num_vars false k []
                   = KDone (sort_esop X num_vars e :: rest))) \/
  (run_k X fuel binary num_vars true k [] = KOutOfFuel /\
   run_k X fuel binary num_vars false k [] = KOutOfFuel) \/
  (run_k X fuel binary num_vars true k [] = KUndefined /\
   run_k X fuel binary num_vars false k [] = KUndefined).
Proof.
  unfold run_k.
  destruct (encode binary num_vars k) as [st|];
    [|right; right; right; right; split; reflexivity].
  destruct (INT_MAX <? sid st); [right; right; right; right; split; reflexivity|].
  set (cs2 := cnf_symmetry_breaking X _).
  destruct fuel as [|fuel]; [right; right; right; left; split; reflexivity|].
  cbn [solve_loop].
  destruct (solve X cs2) as [model|]; [|left; split; reflexivity].
  destruct (extract_esop num_vars k model) as [|c e];
    [right; left; split; reflexivity|].
  right; right; left; exists (c :: e); split; [discriminate|split; [reflexivity|]].
  cbv iota.
  destruct (solve_loop_enum_cases X num_vars k fuel
              (fold_left add_clause (blocking_clauses num_vars k model) cs2)
              ([] ++ [sort_esop X num_vars (c :: e)])) as [H|[H|[s H]]];
    rewrite H; [right; left; reflexivity|left; reflexivity|].
  right; right; exists s; reflexivity.
Qed.

Lemma k_loop_modes (X : externals) (fuel : nat) (binary : list ascii)
  (num_vars : Z) (e : esop) (es : list esop) (f1 f2 : list esop -> outcome) :
  (f1 [] = Ok [e] -> f2 [] = Ok es ->
   es = [[]] \/ exists rest, es = sort_esop X num_vars e :: rest) ->
  forall ks,
  k_loop X fuel binary num_vars true ks [] f1 = Ok [e] ->
  k_loop X fuel binary num_vars false ks [] f2 = Ok es ->
  es = [[]] \/ exists rest, es = sort_esop X num_vars e :: rest.
Proof.
  intros Hexit ks; induction ks as [|k ks IH]; cbn [k_loop]; [exact Hexit|].
  destruct (run_k_modes X fuel binary num_vars k) as
    [[-> ->]|[[-> ->]|[[e1 [Hne [-> H2]]]|[[-> ->]|[-> ->]]]]];
    try discriminate.
  - exact IH.
  - intros _ H; injection H as <-; left; reflexivity.
  - intros H1; injection H1 as ->.
    destruct H2 as [->|[->|[rest ->]]]; intros H2; try discriminate H2.
    + injection H2 as <-; left; reflexivity.
    + injection H2 as <-; right; exists rest; reflexivity.
Qed.

(** When the same table and the same [maximum_cubes] give a result in
    both modes, the ESOP of single-solution mode comes first, sorted, in
    the list of enumeration mode (unless that list is the lone empty ESOP,
    returned when a later model of the enumeration decodes to no cube). *)
Theorem exact_synthesis_first_enumerated (X : externals) (fuel : nat)
  (binary : list ascii) (cfg1 cfg2 : config) (e : esop) (es : list esop) :
  one_esop_of cfg1 = true -> one_esop_of cfg2 = false ->
  max_number_of_cubes cfg1 = max_number_of_cubes cfg2 ->
  exact_synthesis_from_binary_string X fuel binary cfg1 = Ok [e] ->
  exact_synthesis_from_binary_string X fuel binary cfg2 = Ok es ->
  es = [[]] \/
  exists rest,
    es = sort_esop X (Z.log2 (Z.of_nat (length binary))) e :: rest.
Proof.
  intros H1 H2 Hm; unfold exact_synthesis_from_binary_string, num_vars_of.
  rewrite H1, H2, Hm.
  destruct (Z.of_nat (length binary) =? 0); [discriminate|].
  set (num_vars := Z.log2 (Z.of_nat (length binary))).
  destruct (64 <=? num_vars); [discriminate|].
  destruct (negb _); [discriminate|].
  destruct (32 <? num_vars); [discriminate|].
  apply k_loop_modes.
  unfold loop_exit; destruct (_ =? UINT_MAX); [|discriminate].
  apply k_loop_modes; discriminate.
Qed.

(** ** Extraction with no input variable *)

(** With [num_vars = 0] no term can be void (there is no [l] at which to
    read both p and q), so every model decodes to [k] empty cubes, the
    constant-1 cube repeated. *)
Theorem extract_esop_no_inputs (k : Z) (model : Z -> bool) :
  extract_esop 0 k model = repeat cube_empty (Z.to_nat k).
Proof.
  unfold extract_esop, extract_term, zrange; cbn [seq map fold_left].
  generalize (Z.to_nat k) as K; intros K.
  assert (H : forall L e, fold_left (fun e (j : Z) => e ++ [cube_empty]) L e
                          = e ++ repeat cube_empty (length L)).
  { induction L as [|j L IH]; intros e; cbn [fold_left length repeat];
      [rewrite app_nil_r; reflexivity|].
    rewrite IH, <- app_assoc; reflexivity. }
  rewrite H, length_map, length_seq; reflexivity.
Qed.

(** * Runs of the concrete instance *)

(** The exhaustive solver and the identity stages meet the hypotheses of
    the sections above. *)
Lemma bf_gauss_sound (cs : constraints) (a : Z -> bool) :
  sat a (gauss_elimination brute_force cs) = true -> sat a cs = true.
Proof. exact (fun H => H). Qed.

Lemma bf_gauss_vars (s : Z) (cs : constraints) :
  vars_below s cs -> vars_below s (gauss_elimination brute_force cs).
Proof. exact (fun H => H). Qed.

Lemma bf_xor_to_cnf_sound (s : Z) (cs : constraints) (a : Z -> bool) :
  vars_below s cs -> sat a (xor_clauses_to_cnf brute_force s cs) = true ->
  sat a cs = true.
Proof. exact (fun _ H => H). Qed.

Lemma bf_symmetry_sound (cs : constraints) (a : Z -> bool) :
  sat a (cnf_symmetry_breaking brute_force cs) = true -> sat a cs = true.
Proof. exact (fun H => H). Qed.

Lemma bf_sort_perm (n : Z) (e : esop) : Permutation (sort_esop brute_force n e) e.
Proof. apply Permutation_refl. Qed.

Lemma bf_gauss_complete (cs : constraints) (a : Z -> bool) :
  sat a cs = true -> exists b, sat b (gauss_elimination brute_force cs) = true.
Proof. intros H; exists a; exact H. Qed.

Lemma bf_xor_to_cnf_complete (s : Z) (cs : constraints) (a : Z -> bool) :
  vars_below s cs -> sat a cs = true ->
  exists b, sat b (xor_clauses_to_cnf brute_force s cs) = true.
Proof. intros _ H; exists a; exact H. Qed.

Lemma bf_symmetry_complete (cs : constraints) (a : Z -> bool) :
  sat a cs = true -> exists b, sat b (cnf_symmetry_breaking brute_force cs) = true.
Proof. intros H; exists a; exact H. Qed.

Definition table_xor2 : list ascii := ["0"; "1"; "1"; "0"]%char.

Definition xor2_esops : list esop :=
  [[mk_cube 0 2; mk_cube 0 1];
   [mk_cube 1 1; mk_cube 2 2];
   [mk_cube 1 3; mk_cube 2 3]].

Lemma computes_zero_table_empty :
  computes 1 ["0"; "0"]%char [].
Proof.
  intros r Hr _; assert (r = 0 \/ r = 1) as [-> | ->] by lia; reflexivity.
Qed.

(** Witness of C1: the XOR of two variables, in single-solution mode. *)
Lemma exact_synthesis_sound_witness :
  exact_synthesis_from_binary_string brute_force 100 table_xor2 (cfg_of 10 true)
  = Ok [[mk_cube 0 2; mk_cube 0 1]] /\
  Forall (computes 2 table_xor2) [[mk_cube 0 2; mk_cube 0 1]].
Proof.
  split; [vm_compute; reflexivity|].
  apply (exact_synthesis_sound brute_force brute_force_solve_sound
           bf_gauss_sound bf_gauss_vars bf_xor_to_cnf_sound bf_symmetry_sound
           bf_sort_perm 100 table_xor2 (cfg_of 10 true) 2);
    [lia|reflexivity|vm_compute; reflexivity].
Defined.

(** Counterexample to C2: on the table "00" the result holds the empty
    ESOP, with no cube, although one cube is allowed ([k = 1] is the
    smallest number of cubes in [1, maximum_cubes] that suffices). *)
Lemma exact_synthesis_minimal_counterexample :
  exact_synthesis_from_binary_string brute_force 100 ["0"; "0"]%char (cfg_of 10 true)
  = Ok [[]] /\
  exists_esop 1 ["0"; "0"]%char 1 /\
  Z.of_nat (length (@nil cube)) <> 1.
Proof.
  split; [vm_compute; reflexivity|split; [|simpl; lia]].
  exists []; split; [simpl; lia|split; [constructor|exact computes_zero_table_empty]].
Defined.

(** Witness of C2 (amended): the XOR of two variables needs two cubes. *)
Lemma exact_synthesis_minimal_witness :
  exists k, 1 <= k <= max_number_of_cubes (cfg_of 10 true) /\
    exists_esop 2 table_xor2 k /\
    (forall k', 1 <= k' < k -> ~ exists_esop 2 table_xor2 k') /\
    (([[mk_cube 0 2; mk_cube 0 1]] = [[]] /\ exists_esop 2 table_xor2 0) \/
     Forall (fun e => Z.of_nat (length e) = k) [[mk_cube 0 2; mk_cube 0 1]]).
Proof.
  apply (exact_synthesis_minimal brute_force brute_force_solve_sound
           bf_gauss_sound bf_gauss_vars bf_xor_to_cnf_sound bf_symmetry_sound
           bf_sort_perm brute_force_solve_complete bf_gauss_complete
           bf_xor_to_cnf_complete bf_symmetry_complete
           100 table_xor2 (cfg_of 10 true) 2);
    [lia|reflexivity|vm_compute; reflexivity|discriminate].
Defined.

(** Witness of C5: the three ESOPs enumerated for the XOR of two
    variables; the first two are not reorderings of each other. *)
Lemma exact_synthesis_no_reorderings_witness :
  exact_synthesis_from_binary_string brute_force 100 table_xor2 (cfg_of 10 false)
  = Ok xor2_esops /\
  ~ Permutation (nth 0 xor2_esops []) (nth 1 xor2_esops []).
Proof.
  assert (H : exact_synthesis_from_binary_string brute_force 100 table_xor2
                (cfg_of 10 false) = Ok xor2_esops) by (vm_compute; reflexivity).
  split; [exact H|].
  apply (exact_synthesis_no_reorderings brute_force brute_force_solve_sound
           bf_gauss_sound bf_gauss_vars bf_xor_to_cnf_sound bf_symmetry_sound
           bf_sort_perm brute_force_solve_complete bf_gauss_complete
           bf_xor_to_cnf_complete bf_symmetry_complete
           100 table_xor2 (cfg_of 10 false) xor2_esops H 0 1).
  simpl; lia.
Defined.

(** Witness of C6: for one input and two terms, two blocking clauses per
    model, and the loop on the empty constraint set ends within
    [2^4 + 1] solver calls. *)
Lemma solve_loop_blocking_witness :
  length (blocking_clauses 1 2 (fun _ => false)) = fact 2 /\
  solve_loop brute_force 17 1 2 false constraints_empty [] <> KOutOfFuel.
Proof.
  destruct (solve_loop_blocking brute_force brute_force_solve_sound 1 2
              ltac:(lia) ltac:(lia)) as [Hl [_ Ht]].
  split; [apply Hl|apply Ht; vm_compute; lia].
Defined.

(** Counterexample to C7: the all-'0' table of length [2^0] with at most
    one cube gives no ESOP, and any all-'0' table with [maximum_cubes = 0]
    gives no ESOP either. *)
Lemma exact_synthesis_zero_table_counterexample :
  exact_synthesis_from_binary_string brute_force 100 ["0"]%char (cfg_of 1 true)
  = Ok [] /\
  exact_synthesis_from_binary_string brute_force 100 ["0"; "0"]%char (cfg_of 0 true)
  = Ok [].
Proof. split; vm_compute; reflexivity. Defined.

(** Witness of C7 (amended): the table "00". *)
Lemma exact_synthesis_zero_table_witness :
  run_k brute_force 1 ["0"; "0"]%char 1 (one_esop_of (cfg_of 10 true)) 1 []
  = KReturn [] /\
  exact_synthesis_from_binary_string brute_force 1 ["0"; "0"]%char (cfg_of 10 true)
  = Ok [[]].
Proof.
  apply (exact_synthesis_zero_table brute_force brute_force_solve_sound
           bf_gauss_sound bf_gauss_vars bf_xor_to_cnf_sound bf_symmetry_sound
           brute_force_solve_complete bf_gauss_complete
           bf_xor_to_cnf_complete bf_symmetry_complete
           1 ["0"; "0"]%char (cfg_of 10 true) 1);
    [lia|reflexivity|repeat constructor|vm_compute; discriminate|lia].
Defined.

Lemma three_not_pow2 (n : Z) : 0 <= n -> 3 <> 2 ^ n.
Proof.
  intros Hn; destruct (Z.lt_ge_cases n 2) as [H|H].
  - assert (n = 0 \/ n = 1) as [-> | ->] by lia; discriminate.
  - pose proof (Z.pow_le_mono_r 2 2 n ltac:(lia) H); simpl in *; lia.
Qed.

(** Witness of C8: the table "000" fails the first assert. *)
Lemma exact_synthesis_rejects_malformed_witness :
  exact_synthesis_from_binary_string brute_force 100 ["0"; "0"; "0"]%char
    (cfg_of 10 true) = Aborted.
Proof.
  exact (exact_synthesis_rejects_malformed brute_force 100 ["0"; "0"; "0"]%char
           (cfg_of 10 true) ltac:(simpl; lia) (or_introl three_not_pow2)).
Defined.

(** Witness of C9: a table of [2^32] zeros. *)
Lemma encode_rows_up_to_32_witness :
  exact_synthesis_from_binary_string brute_force 100
    (repeat "0"%char (Z.to_nat (2 ^ 32))) (cfg_of 10 true) = Undefined.
Proof.
  refine (proj2 (proj2 (encode_rows_up_to_32 brute_force 100
                          (repeat "0"%char (Z.to_nat (2 ^ 32))) (cfg_of 10 true)
                          _ _))).
  - rewrite repeat_length, Z2Nat.id; [reflexivity|lia].
  - vm_compute; discriminate.
Defined.

Definition two_true : constraints := mk_constraints [[1]; [2]] [].

Definition two_true_model : Z -> bool :=
  match brute_force_solve two_true with Some m => m | None => fun _ => false end.

(** Witness of C10: a model with p(0,0) and q(0,0) both true voids the only
    term; the loop returns the empty ESOP although an ESOP was collected. *)
Lemma empty_esop_returns_witness :
  solve_loop brute_force 1 1 1 false two_true [[mk_cube 0 2]] = KReturn [].
Proof.
  exact (proj1 (empty_esop_returns brute_force 0 1 1 false two_true [[mk_cube 0 2]]
                  two_true_model ltac:(vm_compute; reflexivity)
                  ltac:(vm_compute; reflexivity))).
Defined.

(** Witnesses of the further properties. *)

Lemma encode_size_witness :
  exists st, encode table_xor2 2 2 = Some st /\
    length (clauses (cs st))
    = (count_defined table_xor2 (zrange (2 ^ 2))
       * (Z.to_nat 2 * Z.to_nat 2 + Z.to_nat 2))%nat /\
    length (xor_clauses (cs st)) = count_defined table_xor2 (zrange (2 ^ 2)).
Proof.
  destruct (encode table_xor2 2 2) as [st|] eqn:E; [|vm_compute in E; discriminate E].
  exists st; split; [reflexivity|].
  apply (encode_size table_xor2 2 2 st); [lia|lia|exact E].
Defined.

Lemma encode_variables_below_sid_witness :
  exists st, encode ["0"; "x"; "1"; "0"]%char 2 2 = Some st /\
    1 + 2 * 2 * 2 <= sid st /\
    Forall (Forall (fun x => 0 < Z.abs x < sid st)) (clauses (cs st)) /\
    Forall (fun x => Forall (fun v => 0 < v < sid st) (fst x)) (xor_clauses (cs st)).
Proof.
  destruct (encode ["0"; "x"; "1"; "0"]%char 2 2) as [st|] eqn:E;
    [|vm_compute in E; discriminate E].
  exists st; split; [reflexivity|].
  apply (encode_variables_below_sid ["0"; "x"; "1"; "0"]%char 2 2 st); [lia|lia|exact E].
Defined.

Lemma blocking_clause_shape_witness :
  length (blocking_clause 2 2 (fun i => Z.eqb i 1) [1; 0])
  = (2 * Z.to_nat 2 * length [1; 0])%nat /\
  Forall (fun x => 1 <= Z.abs x <= 2 * 2 * 2)
    (blocking_clause 2 2 (fun i => Z.eqb i 1) [1; 0]).
Proof.
  apply (blocking_clause_shape 2 2 (fun i => Z.eqb i 1) [1; 0]); [lia|].
  repeat constructor; discriminate.
Defined.

Lemma extract_esop_shape_witness :
  (length (extract_esop 2 2 (fun i => Z.eqb i 0)) <= Z.to_nat 2)%nat /\
  Forall (fun c => cube_over 2 c = true) (extract_esop 2 2 (fun i => Z.eqb i 0)).
Proof. apply (extract_esop_shape 2 2 (fun i => Z.eqb i 0)); lia. Defined.

Lemma extract_esop_onto_witness :
  exists model, extract_esop 2 3 model = [mk_cube 0 2; mk_cube 1 1].
Proof.
  apply (extract_esop_onto 2 3 [mk_cube 0 2; mk_cube 1 1]); [lia|lia|simpl; lia|].
  repeat constructor.
Defined.

Lemma exact_synthesis_dont_care_symbols_witness :
  exact_synthesis_from_binary_string brute_force 100 ["0"; "x"; "1"; "0"]%char
    (cfg_of 10 true)
  = exact_synthesis_from_binary_string brute_force 100 ["0"; "-"; "1"; "0"]%char
      (cfg_of 10 true).
Proof.
  apply (exact_synthesis_dont_care_symbols brute_force 100 _ _ (cfg_of 10 true)).
  repeat constructor; intros H; discriminate H.
Defined.

Lemma exact_synthesis_one_esop_single_witness :
  (length [[mk_cube 0 2; mk_cube 0 1]] <= 1)%nat.
Proof.
  apply (exact_synthesis_one_esop_single brute_force 100 table_xor2 (cfg_of 10 true));
    [reflexivity|vm_compute; reflexivity].
Defined.

Lemma exact_synthesis_empty_alone_witness :
  xor2_esops = [[]] \/ Forall (fun e => e <> []) xor2_esops.
Proof.
  apply (exact_synthesis_empty_alone brute_force bf_sort_perm 100 table_xor2
           (cfg_of 10 false)).
  vm_compute; reflexivity.
Defined.

Lemma exact_synthesis_max_cubes_mono_witness :
  exact_synthesis_from_binary_string brute_force 100 table_xor2 (cfg_of 5 false)
  = exact_synthesis_from_binary_string brute_force 100 table_xor2 (cfg_of 2 false).
Proof.
  apply exact_synthesis_max_cubes_mono;
    [reflexivity|vm_compute; split; [discriminate|reflexivity]|vm_compute; discriminate].
Defined.

Lemma exact_synthesis_no_passes_witness :
  exact_synthesis_from_binary_string brute_force 100 table_xor2
    (cfg_of (2 ^ 32) true) = Ok [].
Proof.
  apply (exact_synthesis_no_passes brute_force 100 table_xor2 (cfg_of (2 ^ 32) true) 2);
    [lia|reflexivity|reflexivity].
Defined.

Lemma exact_synthesis_first_enumerated_witness :
  xor2_esops = [[]] \/
  exists rest,
    xor2_esops = sort_esop brute_force (Z.log2 (Z.of_nat (length table_xor2)))
                   [mk_cube 0 2; mk_cube 0 1] :: rest.
Proof.
  apply (exact_synthesis_first_enumerated brute_force 100 table_xor2
           (cfg_of 10 true) (cfg_of 10 false));
    [reflexivity|reflexivity|reflexivity|vm_compute; reflexivity|vm_compute; reflexivity].
Defined.
